(** * ExecutorService and ExecutorServiceProvider (lib/ExecutorService.cc)

    A shallow embedding of the executor of the Pulsar C++ client: one
    [io_service_] driven by a detached worker thread, the close / restart
    protocol built on [closed_], [ioServiceDone_], [mutex_] and [cond_],
    and the round-robin pool of executors.

    Threads and time.  The code blocks in exactly one place, the condition
    variable wait of [close].  The embedding keeps, for every executor, the
    list of worker threads that are still inside [io_service::run], and
    lets time pass explicitly ([advance]): a thread that has been told to
    stop leaves [run] after the latency the environment gave it, and then
    executes the tail of the lambda of [start].  A compare-and-swap, a
    store and every other action of a caller is one atomic step, so calls
    that race are calls in some order.  Every action that another thread or
    a test can observe is appended to a per-executor trace.

    The lambda of [start] holds a shared pointer to the executor; the
    reference counts are not part of the embedding. *)

From Stdlib Require Import ZArith Lia Bool.
From stdpp Require Import base numbers list strings.

Local Open Scope Z_scope.

(** ** Observable actions *)

Inductive Event : Type :=
| LogDebug (msg : string)
| LogError (msg : string)
| ThreadStart              (* std::thread t{...}; t.detach() *)
| ClosedSet                (* closed_: false -> true by compare_exchange_strong *)
| ClosedClear              (* closed_ = false *)
| Lock                     (* mutex_ acquired *)
| Unlock                   (* mutex_ released *)
| DoneSet                  (* ioServiceDone_ = true *)
| DoneClear                (* ioServiceDone_ = false *)
| NotifyAll                (* cond_.notify_all() *)
| IoStop                   (* io_service_.stop() *)
| IoRestart                (* io_service_.restart() *)
| WaitBegin (timeout : option Z)  (* cond_.wait / cond_.wait_for: mutex_ released, caller blocked *)
| WaitEnd                  (* the wait returned, mutex_ re-acquired *)
| IoObject (kind : string) (* a socket, resolver or timer bound to io_service_ *)
| Post.                    (* io_service_.post(task) *)

#[global] Instance Event_eq_dec : EqDecision Event.
Proof. solve_decision. Defined.

(** A worker thread that is inside [io_service::run]: either dispatching,
    or told to stop and leaving [run] after [left] more milliseconds. *)
Inductive Thread : Type :=
| Running
| Draining (left : Z).

(** Modelled from the spec: the fields of the executor (ExecutorService.h
    is not part of the sources): [closed_], an atomic boolean that is true
    once a close sequence has begun, and [ioServiceDone_], a boolean set
    by the worker thread and guarded by the mutex.  The threads and the
    trace are the environment of the embedding. *)
Record ExecutorService : Type := mkExecutor {
  closed_ : bool;          (* std::atomic<bool> closed_ *)
  ioServiceDone_ : bool;   (* guarded by mutex_ *)
  io_stopped : bool;       (* io_service_.stopped() *)
  threads : list Thread;   (* detached workers still inside run() *)
  trace : list Event       (* oldest first *)
}.

Definition emit (ev : Event) (e : ExecutorService) : ExecutorService :=
  mkExecutor (closed_ e) (ioServiceDone_ e) (io_stopped e) (threads e) (trace e ++ [ev]).

Definition set_closed (b : bool) (e : ExecutorService) : ExecutorService :=
  mkExecutor b (ioServiceDone_ e) (io_stopped e) (threads e) (trace e).

Definition set_done (b : bool) (e : ExecutorService) : ExecutorService :=
  mkExecutor (closed_ e) b (io_stopped e) (threads e) (trace e).

Definition set_stopped (b : bool) (e : ExecutorService) : ExecutorService :=
  mkExecutor (closed_ e) (ioServiceDone_ e) b (threads e) (trace e).

Definition set_threads (ts : list Thread) (e : ExecutorService) : ExecutorService :=
  mkExecutor (closed_ e) (ioServiceDone_ e) (io_stopped e) ts (trace e).

(** ** The worker thread *)

(** What the lambda of [start] does once [run(ec)] has returned: [ec] is
    [Some msg] when the dispatch loop ended with an error. *)
Definition worker_exit (ec : option string) (e : ExecutorService) : ExecutorService :=
  let e1 := match ec with
            | Some msg => emit (LogError ("Failed to run io_service: " +:+ msg)) e
            | None => emit (LogDebug "Event loop of ExecutorService exits successfully") e
            end in
  let e2 := emit Lock e1 in
  let e3 := emit DoneSet (set_done true e2) in
  let e4 := emit Unlock e3 in
  emit NotifyAll e4.

(** [ExecutorService::start]: one detached thread that enters [run].  A
    [run] on a stopped io_service returns at once. *)
Definition start (e : ExecutorService) : ExecutorService :=
  let th := if io_stopped e then Draining 0 else Running in
  emit (LogDebug "Run io_service in a single thread")
       (emit ThreadStart (set_threads (threads e ++ [th]) e)).

(** ExecutorService::ExecutorService() {} *)
Definition new_executor : ExecutorService := mkExecutor false false false [] [].

(** [ExecutorService::create]: allocation immediately followed by start. *)
Definition create : ExecutorService := start new_executor.

(** ** The reactor *)

(** [io_service_.stop()]: every dispatching thread starts to leave [run];
    [d] is the latency the environment gives them. *)
Definition stop_thread (d : Z) (th : Thread) : Thread :=
  match th with
  | Running => Draining d
  | Draining l => Draining l
  end.

Definition io_stop (d : Z) (e : ExecutorService) : ExecutorService :=
  emit IoStop (set_threads (map (stop_thread d) (threads e)) (set_stopped true e)).

Definition io_restart (e : ExecutorService) : ExecutorService :=
  emit IoRestart (set_stopped false e).

(** ** Time *)

Definition exits_within (dt : Z) (th : Thread) : bool :=
  match th with
  | Running => false
  | Draining l => l <=? dt
  end.

Definition age (dt : Z) (th : Thread) : Thread :=
  match th with
  | Running => Running
  | Draining l => Draining (l - dt)
  end.

Fixpoint run_exits (n : nat) (e : ExecutorService) : ExecutorService :=
  match n with
  | O => e
  | S k => run_exits k (worker_exit None e)
  end.

(** [dt] milliseconds pass: the threads whose latency is used up leave
    [run] without error and execute [worker_exit]. *)
Definition advance (dt : Z) (e : ExecutorService) : ExecutorService :=
  let gone := filter (fun th => exits_within dt th = true) (threads e) in
  let stay := filter (fun th => exits_within dt th = false) (threads e) in
  run_exits (length gone) (set_threads (map (age dt) stay) e).

(** The dispatch loop of a running thread fails with [msg]
    ([run(ec)] returns with [ec] set). *)
Definition worker_fail (msg : string) (e : ExecutorService) : ExecutorService :=
  match threads e with
  | [] => e
  | _ :: rest => worker_exit (Some msg) (set_threads rest e)
  end.

(** Milliseconds until the next thread leaves [run], if any will. *)
Fixpoint next_exit (ts : list Thread) : option Z :=
  match ts with
  | [] => None
  | Running :: rest => next_exit rest
  | Draining l :: rest =>
      match next_exit rest with
      | Some m => Some (Z.min l m)
      | None => Some l
      end
  end.

(** ** Condition variable *)

(** [cond_.wait(lock, [this]{ return ioServiceDone_; })]: returns the state
    and the time spent blocked; [None] when no thread will ever set the
    flag, so the caller blocks forever. *)
Definition cond_wait (e : ExecutorService) : option (ExecutorService * Z) :=
  if ioServiceDone_ e then Some (e, 0)
  else match next_exit (threads e) with
       | Some m => Some (emit WaitEnd (advance m (emit (WaitBegin None) e)), m)
       | None => None
       end.

(** [cond_.wait_for(lock, milliseconds(t), [this]{ return ioServiceDone_; })] *)
Definition cond_wait_for (t : Z) (e : ExecutorService) : ExecutorService * Z :=
  if ioServiceDone_ e then (e, 0)
  else
    let dt := match next_exit (threads e) with
              | Some m => if m <=? t then m else t
              | None => t
              end in
    (emit WaitEnd (advance dt (emit (WaitBegin (Some t)) e)), dt).

(** ** close, restart, destructor *)

(** [closed_.compare_exchange_strong(expectedState = false, true)] *)
Definition compare_exchange_closed (e : ExecutorService) : bool * ExecutorService :=
  if closed_ e then (false, e) else (true, emit ClosedSet (set_closed true e)).

(** [ExecutorService::close(long timeoutMs)]; the second component is the
    time the caller spent inside the call. *)
Definition close (d : Z) (timeoutMs : Z) (e : ExecutorService)
  : option (ExecutorService * Z) :=
  let '(won, e1) := compare_exchange_closed e in
  if negb won then Some (e1, 0)
  else if timeoutMs =? 0 then Some (io_stop d e1, 0)
  else
    let e2 := io_stop d (emit Lock e1) in
    if 0 <? timeoutMs then
      let '(e3, dt) := cond_wait_for timeoutMs e2 in
      Some (emit Unlock e3, dt)
    else
      match cond_wait e2 with
      | Some (e3, dt) => Some (emit Unlock e3, dt)
      | None => None
      end.

(** [ExecutorService::restart] *)
Definition restart (d : Z) (e : ExecutorService) : option (ExecutorService * Z) :=
  match close d (-1) e with
  | None => None
  | Some (e1, dt) =>
      let e2 := emit ClosedClear (set_closed false e1) in
      let e3 := emit Unlock (emit DoneClear (set_done false (emit Lock e2))) in
      let e4 := io_restart e3 in
      Some (start e4, dt)
  end.

(** ExecutorService::~ExecutorService() { close(0); } *)
Definition destroy (d : Z) (e : ExecutorService) : option (ExecutorService * Z) :=
  close d 0 e.

(** [ExecutorService::postWork] *)
Definition postWork (e : ExecutorService) : ExecutorService := emit Post e.

(** ** Factory operations *)

Inductive Exception : Type :=
| system_error (what : string)    (* boost::system::system_error *)
| runtime_error (what : string).  (* std::runtime_error *)

Inductive Outcome (A : Type) : Type :=
| Returned (a : A)
| Thrown (exc : Exception).
Arguments Returned {A} a.
Arguments Thrown {A} exc.

(** The shape shared by [createSocket], [createTcpResolver] and
    [createDeadlineTimer]: [sys = Some what] when the constructor of the
    boost object throws a system_error whose [what()] is [what].  The
    handle of a new object is its position in the trace. *)
Definition try_new (kind prefix : string) (sys : option string) (d : Z)
           (e : ExecutorService)
  : option (Outcome nat * ExecutorService * Z) :=
  match sys with
  | None => Some (Returned (length (trace e)), emit (IoObject kind) e, 0)
  | Some what =>
      match restart d e with
      | None => None
      | Some (e1, dt) =>
          Some (Thrown (runtime_error (prefix +:+ what)), e1, dt)
      end
  end.

Definition createSocket := try_new "socket" "Failed to create socket: ".
Definition createTcpResolver := try_new "resolver" "Failed to create resolver: ".
Definition createDeadlineTimer :=
  try_new "deadline_timer" "Failed to create deadline_timer: ".

(** [createTlsSocket]: an ssl::stream over an existing socket; there is no
    try block, so a failure of the constructor reaches the caller as it is. *)
Definition createTlsSocket (sys : option string) (socket ctx : nat) (e : ExecutorService)
  : Outcome (nat * nat) * ExecutorService :=
  match sys with
  | None => (Returned (socket, ctx), e)
  | Some what => (Thrown (system_error what), e)
  end.

(** ** ExecutorServiceProvider *)

(** Conversions of the expression
    [int idx = executorIdx_++ % executors_.size()]: the int counter is
    converted to size_t for the modulo, the result back to int. *)
Definition to_size_t (z : Z) : Z := z mod 2 ^ 64.
Definition to_int (z : Z) : Z := (z + 2 ^ 31) mod 2 ^ 32 - 2 ^ 31.

Definition INT_MAX : Z := 2 ^ 31 - 1.

(** Modelled from the spec: the fields of the pool (ExecutorService.h is
    not part of the sources): a fixed-length sequence of optional executor
    handles and a counter; the counter is an int, like the index that
    [get] computes from it, and its increment wraps. *)
Record ExecutorServiceProvider : Type := mkProvider {
  executors_ : list (option nat);  (* vector of shared pointers; a handle is an address in the heap *)
  executorIdx_ : Z                 (* int *)
}.

(** The executors allocated so far; [ExecutorService::create] allocates at
    the end. *)
Abbreviation Heap := (list ExecutorService).

(** [ExecutorServiceProvider(int nthreads)]: the vector constructor takes
    a size_t, so a negative [nthreads] asks for more than max_size and
    throws. *)
Definition new_provider (nthreads : Z) : option ExecutorServiceProvider :=
  if nthreads <? 0 then None
  else Some (mkProvider (replicate (Z.to_nat nthreads) None) 0).

(** The slot index computed by [get]; [None] when the modulo divides by
    zero. *)
Definition slot_index (p : ExecutorServiceProvider) : option Z :=
  let size := Z.of_nat (length (executors_ p)) in
  if size =? 0 then None
  else Some (to_int (to_size_t (executorIdx_ p) mod size)).

(** [executors_[idx]] with the int index converted to size_t; [None] when
    it is out of range. *)
Definition slot_at (idx : Z) (slots : list (option nat)) : option (option nat) :=
  if to_size_t idx <? Z.of_nat (length slots)
  then slots !! Z.to_nat (to_size_t idx)
  else None.

(** [ExecutorServiceProvider::get] *)
Definition get (p : ExecutorServiceProvider) (h : Heap)
  : option (nat * ExecutorServiceProvider * Heap) :=
  match slot_index p with
  | None => None
  | Some idx =>
      let next := to_int (executorIdx_ p + 1) in
      match slot_at idx (executors_ p) with
      | None => None
      | Some (Some ex) => Some (ex, mkProvider (executors_ p) next, h)
      | Some None =>
          let ex := length h in
          Some (ex,
                mkProvider (<[Z.to_nat (to_size_t idx) := Some ex]> (executors_ p)) next,
                h ++ [create])
      end
  end.

(** Modelled from the spec: TimeoutProcessor (TimeUtils.h is not part of
    the sources).  A shrinking-remainder timer over the original budget:
    [tik] records the time before a step, [tok] takes the time the step
    consumed off the remainder, which is never negative once consumed
    from, and [getLeftTimeout] is what remains. *)
Record TimeoutProcessor : Type := mkTimeout {
  leftTimeout_ : Z;
  before_ : Z
}.

Definition new_timeout (timeout : Z) : TimeoutProcessor := mkTimeout timeout 0.
Definition tik (now : Z) (tp : TimeoutProcessor) : TimeoutProcessor :=
  mkTimeout (leftTimeout_ tp) now.
Definition tok (now : Z) (tp : TimeoutProcessor) : TimeoutProcessor :=
  mkTimeout (Z.max 0 (leftTimeout_ tp - (now - before_ tp))) (before_ tp).
Definition getLeftTimeout (tp : TimeoutProcessor) : Z := leftTimeout_ tp.

(** One call of [executor->close] made by the pool. *)
Record CloseCall : Type := mkCall {
  call_handle : nat;
  call_timeout : Z;
  call_elapsed : Z
}.

Record PoolClose : Type := mkPoolClose {
  pc_heap : Heap;
  pc_clock : Z;
  pc_timer : TimeoutProcessor;
  pc_calls : list CloseCall     (* oldest first *)
}.

(** [executor->close(t)] on the executor at address [ex]; while the caller
    is blocked the same time passes for every other executor. *)
Definition close_at (d : Z) (t : Z) (ex : nat) (h : Heap) : option (Heap * Z) :=
  match h !! ex with
  | None => None
  | Some e =>
      match close d t e with
      | None => None
      | Some (e', dt) => Some (<[ex := e']> (map (advance dt) h), dt)
      end
  end.

(** The body of the loop of [ExecutorServiceProvider::close] for one
    slot; the slot itself is reset by the caller. *)
Definition close_slot (drain : nat -> Z) (slot : option nat) (st : PoolClose)
  : option PoolClose :=
  let tp := tik (pc_clock st) (pc_timer st) in
  match slot with
  | None => Some (mkPoolClose (pc_heap st) (pc_clock st) (tok (pc_clock st) tp) (pc_calls st))
  | Some ex =>
      let t := getLeftTimeout tp in
      match close_at (drain ex) t ex (pc_heap st) with
      | None => None
      | Some (h', dt) =>
          let now := pc_clock st + dt in
          Some (mkPoolClose h' now (tok now tp) (pc_calls st ++ [mkCall ex t dt]))
      end
  end.

Fixpoint close_slots (drain : nat -> Z) (slots : list (option nat)) (st : PoolClose)
  : option (list (option nat) * PoolClose) :=
  match slots with
  | [] => Some ([], st)
  | slot :: rest =>
      match close_slot drain slot st with
      | None => None
      | Some st1 =>
          match close_slots drain rest st1 with
          | None => None
          | Some (rest', st2) => Some (None :: rest', st2)
          end
      end
  end.

(** [ExecutorServiceProvider::close(long timeoutMs)] at time [now];
    [drain ex] is the latency of the worker of executor [ex]. *)
Definition pool_close (drain : nat -> Z) (timeoutMs : Z) (now : Z)
           (p : ExecutorServiceProvider) (h : Heap)
  : option (ExecutorServiceProvider * PoolClose) :=
  match close_slots drain (executors_ p) (mkPoolClose h now (new_timeout timeoutMs) []) with
  | None => None
  | Some (slots', st) => Some (mkProvider slots' (executorIdx_ p), st)
  end.

(** ** Derived notions used to state the properties *)

(** Milliseconds from [io_service_.stop()] until [ioServiceDone_] is true,
    for an executor whose workers need [d] to leave [run]; [None] when no
    thread is left to set it. *)
Definition time_to_done (d : Z) (e : ExecutorService) : option Z :=
  if ioServiceDone_ e then Some 0
  else next_exit (map (stop_thread d) (threads e)).

(** How often an event occurs in a trace. *)
Definition count_event (ev : Event) (evs : list Event) : nat :=
  length (filter (fun x => x = ev) evs).

(** What callers and the environment can do to one executor between its
    creation and a restart. *)
Inductive Action : Type :=
| DoClose (d timeoutMs : Z)   (* some thread calls close(timeoutMs) *)
| DoDestroy (d : Z)           (* the destructor runs *)
| DoPost                      (* some thread calls postWork *)
| Elapse (dt : Z)             (* time passes *)
| RunFails (msg : string).    (* run(ec) of a worker returns with an error *)

Definition act (a : Action) (e : ExecutorService) : option ExecutorService :=
  match a with
  | DoClose d t => fst <$> close d t e
  | DoDestroy d => fst <$> destroy d e
  | DoPost => Some (postWork e)
  | Elapse dt => Some (advance dt e)
  | RunFails msg => Some (worker_fail msg e)
  end.

Fixpoint run_actions (acts : list Action) (e : ExecutorService) : option ExecutorService :=
  match acts with
  | [] => Some e
  | a :: rest =>
      match act a e with
      | None => None
      | Some e1 => run_actions rest e1
      end
  end.

(** The restart the specification describes, with a non-blocking close in
    place of the [close(-1)] of the code; only used for comparison. *)
Definition restart_as_specified (d : Z) (e : ExecutorService)
  : option (ExecutorService * Z) :=
  match close d 0 e with
  | None => None
  | Some (e1, dt) =>
      let e2 := emit ClosedClear (set_closed false e1) in
      let e3 := emit Unlock (emit DoneClear (set_done false (emit Lock e2))) in
      let e4 := io_restart e3 in
      Some (start e4, dt)
  end.

(** The events only a caller produces: a worker leaving [run] and a wait
    produce none of them. *)
Definition caller_event (ev : Event) : bool :=
  match ev with
  | ThreadStart | ClosedSet | ClosedClear | DoneClear
  | IoStop | IoRestart | IoObject _ | Post => true
  | _ => false
  end.

(** The two events of an effective close. *)
Definition closer_event (ev : Event) : Prop := ev = ClosedSet \/ ev = IoStop.

(** What a factory does when the allocation fails with [what]: the result
    [r] is the one restart of the executor followed by a runtime_error
    made of [prefix] and [what]; the restart resets the io_service once,
    starts one thread, and no object is created. *)
Definition restart_then_throw (prefix what : string) (d : Z) (e : ExecutorService)
           (r : option (Outcome nat * ExecutorService * Z)) : Prop :=
  match restart d e with
  | None => r = None
  | Some (e1, dt) =>
      r = Some (Thrown (runtime_error (prefix +:+ what)), e1, dt) /\
      count_event IoRestart (trace e1) = S (count_event IoRestart (trace e)) /\
      count_event ThreadStart (trace e1) = S (count_event ThreadStart (trace e)) /\
      forall kind,
        count_event (IoObject kind) (trace e1) = count_event (IoObject kind) (trace e)
  end.

(** The latency left to a thread that is leaving [run] is not negative. *)
Definition wf_thread (th : Thread) : Prop :=
  match th with
  | Running => True
  | Draining l => 0 <= l
  end.

Definition wf_executor (e : ExecutorService) : Prop := Forall wf_thread (threads e).

(** Every populated slot holds the address of an allocated executor. *)
Definition slots_valid (slots : list (option nat)) (h : Heap) : Prop :=
  forall i ex, slots !! i = Some (Some ex) -> (ex < length h)%nat.

(** The timeouts the pool hands out, call after call, from a budget
    [left]: each call gets what is left, which is not negative, uses
    between nothing and all of it, and leaves the rest to the calls after
    it. *)
Fixpoint budget_ok (left : Z) (calls : list CloseCall) : Prop :=
  match calls with
  | [] => True
  | c :: rest =>
      call_timeout c = left /\ 0 <= left /\
      0 <= call_elapsed c <= left /\
      budget_ok (left - call_elapsed c) rest
  end.

Definition total_elapsed (calls : list CloseCall) : Z :=
  foldr (fun c acc => call_elapsed c + acc) 0 calls.

(** [get] called [k] times in a row; the handles in the order returned. *)
Fixpoint gets (k : nat) (p : ExecutorServiceProvider) (h : Heap)
  : option (list nat * ExecutorServiceProvider * Heap) :=
  match k with
  | O => Some ([], p, h)
  | S k' =>
      match get p h with
      | None => None
      | Some (ex, p1, h1) =>
          match gets k' p1 h1 with
          | None => None
          | Some (exs, p2, h2) => Some (ex :: exs, p2, h2)
          end
      end
  end.

(** A pool of [N] slots whose first [k] slots hold the executors at the
    addresses [a], [a + 1], ... and whose counter is [k]: the pool after
    [k] calls of [get] on a new pool. *)
Definition pool_after (a N k : nat) : ExecutorServiceProvider :=
  mkProvider ((Some <$> seq a k) ++ replicate (N - k) None) (Z.of_nat k).

(** ** Racing closers

    [close] cut at its atomic actions, so that several threads inside
    [close] can be interleaved: the compare-and-swap, the stop signal
    (with the lock taken first on the blocking paths), the wait. *)
Inductive Pc : Type :=
| PcCas (timeoutMs : Z)    (* before closed_.compare_exchange_strong *)
| PcStop (timeoutMs : Z)   (* won the exchange, before io_service_.stop() *)
| PcWait (timeoutMs : Z)   (* holds mutex_, before cond_.wait / wait_for *)
| PcReturned.

(** One atomic action of a thread inside [close]; [None] when the thread
    has returned or is blocked for ever. *)
Definition closer_step (d : Z) (pc : Pc) (e : ExecutorService)
  : option (Pc * ExecutorService) :=
  match pc with
  | PcCas t =>
      let '(won, e1) := compare_exchange_closed e in
      Some (if won then PcStop t else PcReturned, e1)
  | PcStop t =>
      if t =? 0 then Some (PcReturned, io_stop d e)
      else Some (PcWait t, io_stop d (emit Lock e))
  | PcWait t =>
      if 0 <? t then Some (PcReturned, emit Unlock (cond_wait_for t e).1)
      else match cond_wait e with
           | Some (e3, _) => Some (PcReturned, emit Unlock e3)
           | None => None
           end
  | PcReturned => None
  end.

(** A thread that runs through [close] alone. *)
Definition close_steps (d timeoutMs : Z) (e : ExecutorService) : option ExecutorService :=
  match closer_step d (PcCas timeoutMs) e with
  | Some (PcReturned, e1) => Some e1
  | Some (pc1, e1) =>
      match closer_step d pc1 e1 with
      | Some (PcReturned, e2) => Some e2
      | Some (pc2, e2) => snd <$> closer_step d pc2 e2
      | None => None
      end
  | None => None
  end.

(** What the scheduler picks next: a thread that is inside [close], or
    the environment. *)
Inductive Sched : Type :=
| RunThread (i : nat)
| EnvPost
| EnvElapse (dt : Z)
| EnvRunFails (msg : string).

Definition sched_step (d : Z) (s : Sched) (st : list Pc * ExecutorService)
  : list Pc * ExecutorService :=
  let '(pcs, e) := st in
  match s with
  | RunThread i =>
      match pcs !! i with
      | Some pc =>
          match closer_step d pc e with
          | Some (pc', e') => (<[i := pc']> pcs, e')
          | None => (pcs, e)
          end
      | None => (pcs, e)
      end
  | EnvPost => (pcs, postWork e)
  | EnvElapse dt => (pcs, advance dt e)
  | EnvRunFails msg => (pcs, worker_fail msg e)
  end.

Definition run_sched (d : Z) (sched : list Sched) (st : list Pc * ExecutorService)
  : list Pc * ExecutorService :=
  foldl (fun st s => sched_step d s st) st sched.

Definition is_stop (pc : Pc) : bool :=
  match pc with PcStop _ => true | _ => false end.

Definition is_cas (pc : Pc) : bool :=
  match pc with PcCas _ => true | _ => false end.

(** The threads that have won the exchange and not yet signalled stop. *)
Definition pending_stops (pcs : list Pc) : nat :=
  length (filter (fun pc => is_stop pc = true) pcs).

(** What stays true while threads race through [close], relative to the
    counts [c0] of transitions of [closed_] and [s0] of stop signals, and
    to the value [b0] of [closed_], at the start: [c] transitions have
    been added, at most one, and none if [closed_] was true then or is
    false now; and every transition is matched by a stop signal given or pending. *)
Definition race_inv (c0 s0 : nat) (b0 : bool) (st : list Pc * ExecutorService) : Prop :=
  (b0 = true -> closed_ st.2 = true) /\
  exists c : nat,
    (closed_ st.2 = false -> c = 0%nat) /\
    (c <= 1)%nat /\
    (b0 = true -> c = 0%nat) /\
    count_event ClosedSet (trace st.2) = (c0 + c)%nat /\
    (count_event IoStop (trace st.2) + pending_stops st.1 = s0 + c)%nat.

(** ** Whole lives of an executor

    Everything a user and the environment can do to an executor, restart
    and the factories included. *)
Inductive Op : Type :=
| OpAct (a : Action)
| OpRestart (d : Z)
| OpCreateSocket (sys : option string) (d : Z)
| OpCreateTcpResolver (sys : option string) (d : Z)
| OpCreateDeadlineTimer (sys : option string) (d : Z)
| OpCreateTlsSocket (sys : option string) (socket ctx : nat).

Definition run_op (o : Op) (e : ExecutorService) : option ExecutorService :=
  match o with
  | OpAct a => act a e
  | OpRestart d => fst <$> restart d e
  | OpCreateSocket sys d => (fun r => r.1.2) <$> createSocket sys d e
  | OpCreateTcpResolver sys d => (fun r => r.1.2) <$> createTcpResolver sys d e
  | OpCreateDeadlineTimer sys d => (fun r => r.1.2) <$> createDeadlineTimer sys d e
  | OpCreateTlsSocket sys socket ctx => Some (createTlsSocket sys socket ctx e).2
  end.

Fixpoint run_ops (ops : list Op) (e : ExecutorService) : option ExecutorService :=
  match ops with
  | [] => Some e
  | o :: rest =>
      match run_op o e with
      | None => None
      | Some e1 => run_ops rest e1
      end
  end.




(** The mutex as the trace shows it: taken by [Lock] and by the return of
    a wait, released by [Unlock] and by the start of a wait; [None] when
    it is taken while held, released while free, or when
    [ioServiceDone_] is written without it. *)
Definition mutex_step (held : bool) (ev : Event) : option bool :=
  match ev with
  | Lock | WaitEnd => if held then None else Some true
  | Unlock | WaitBegin _ => if held then Some false else None
  | DoneSet | DoneClear => if held then Some true else None
  | _ => Some held
  end.

Fixpoint mutex_run (held : bool) (evs : list Event) : option bool :=
  match evs with
  | [] => Some held
  | ev :: rest =>
      match mutex_step held ev with
      | None => None
      | Some held' => mutex_run held' rest
      end
  end.

(** An executor that is closed has been told to stop. *)
Definition stopped_if_closed (e : ExecutorService) : Prop :=
  closed_ e = true -> io_stopped e = true.

(** The bookkeeping of a life, read off the trace: one thread per start
    of the loop, one stop signal per transition of [closed_], and one
    more transition than resets exactly while [closed_] is true. *)
Record life_counts (e : ExecutorService) : Prop := mkCounts {
  cnt_threads :
    count_event ThreadStart (trace e) = S (count_event IoRestart (trace e));
  cnt_clears :
    count_event ClosedClear (trace e) = count_event IoRestart (trace e);
  cnt_stops :
    count_event IoStop (trace e) = count_event ClosedSet (trace e);
  cnt_sets :
    count_event ClosedSet (trace e) =
    (count_event ClosedClear (trace e) + if closed_ e then 1 else 0)%nat
}.

(** * Properties *)

(** ** Worker exit and the passing of time *)

Lemma worker_exit_done ec e : ioServiceDone_ (worker_exit ec e) = true.
Proof. by destruct ec. Qed.

Lemma worker_exit_closed ec e : closed_ (worker_exit ec e) = closed_ e.
Proof. by destruct ec. Qed.

Lemma worker_exit_threads ec e : threads (worker_exit ec e) = threads e.
Proof. by destruct ec. Qed.

Lemma worker_exit_stopped ec e : io_stopped (worker_exit ec e) = io_stopped e.
Proof. by destruct ec. Qed.

Lemma run_exits_done n e :
  ioServiceDone_ (run_exits n e) = if n is O then ioServiceDone_ e else true.
Proof.
  revert e; induction n as [|n IH]; intros e; [done|].
  simpl. rewrite IH. destruct n; [apply worker_exit_done|done].
Qed.

Lemma run_exits_closed n e : closed_ (run_exits n e) = closed_ e.
Proof.
  revert e; induction n as [|n IH]; intros e; [done|].
  simpl. by rewrite IH, worker_exit_closed.
Qed.

Lemma run_exits_threads n e : threads (run_exits n e) = threads e.
Proof.
  revert e; induction n as [|n IH]; intros e; [done|].
  simpl. by rewrite IH, worker_exit_threads.
Qed.

Lemma run_exits_stopped n e : io_stopped (run_exits n e) = io_stopped e.
Proof.
  revert e; induction n as [|n IH]; intros e; [done|].
  simpl. by rewrite IH, worker_exit_stopped.
Qed.

Lemma worker_exit_trace ec e : exists evs, trace (worker_exit ec e) = trace e ++ evs.
Proof.
  destruct ec; simpl; eexists; rewrite <- !app_assoc; reflexivity.
Qed.

Lemma run_exits_trace n e : exists evs, trace (run_exits n e) = trace e ++ evs.
Proof.
  revert e; induction n as [|n IH]; intros e; simpl.
  - exists []. by rewrite app_nil_r.
  - destruct (IH (worker_exit None e)) as [evs2 ->].
    destruct (worker_exit_trace None e) as [evs1 ->].
    exists (evs1 ++ evs2). by rewrite app_assoc.
Qed.

Lemma advance_closed dt e : closed_ (advance dt e) = closed_ e.
Proof. unfold advance. by rewrite run_exits_closed. Qed.

Lemma advance_stopped dt e : io_stopped (advance dt e) = io_stopped e.
Proof. unfold advance. by rewrite run_exits_stopped. Qed.

Lemma advance_trace dt e : exists evs, trace (advance dt e) = trace e ++ evs.
Proof. unfold advance. apply (run_exits_trace _ (set_threads _ e)). Qed.

(** Every thread that is leaving [run] needs at least [next_exit]. *)
Lemma next_exit_lower ts m :
  next_exit ts = Some m ->
  Forall (fun th => if th is Draining l then m <= l else True) ts.
Proof.
  revert m; induction ts as [|[|l] ts IH]; intros m Hm; simpl in *.
  - constructor.
  - constructor; [done|]. by apply IH.
  - destruct (next_exit ts) as [m'|] eqn:E.
    + injection Hm as <-. constructor; [lia|].
      eapply Forall_impl; [by apply IH|].
      intros [|l']; simpl; [done|lia].
    + injection Hm as <-. constructor; [lia|].
      clear IH. induction ts as [|[|l'] ts IH]; simpl in *; try done.
      * constructor; [done|]. by apply IH.
      * by destruct (next_exit ts).
Qed.

(** Some thread leaves [run] exactly at [next_exit]. *)
Lemma next_exit_attained ts m :
  next_exit ts = Some m -> Draining m ∈ ts.
Proof.
  revert m; induction ts as [|[|l] ts IH]; intros m Hm; simpl in *.
  - done.
  - right. by apply IH.
  - destruct (next_exit ts) as [m'|] eqn:E; injection Hm as <-.
    + destruct (Z.min_spec l m') as [[_ ->]|[_ ->]]; [left|right; by apply IH].
    + left.
Qed.

Lemma next_exit_none ts :
  next_exit ts = None -> Forall (fun th => th = Running) ts.
Proof.
  induction ts as [|[|l] ts IH]; simpl; intros H.
  - constructor.
  - constructor; [done|by apply IH].
  - by destruct (next_exit ts).
Qed.

(** When the time that passes reaches [next_exit], the flag is set. *)
Lemma advance_done dt e m :
  next_exit (threads e) = Some m -> m <= dt ->
  ioServiceDone_ (advance dt e) = true.
Proof.
  intros Hm Hle. unfold advance. rewrite run_exits_done.
  apply next_exit_attained in Hm.
  destruct (filter _ (threads e)) as [|th gone] eqn:E; [|done].
  exfalso. eapply (filter_nil_not_elem_of _ _ (Draining m)); [exact E| |exact Hm].
  simpl. by apply Z.leb_le.
Qed.

(** Before [next_exit] no thread leaves and the flag is untouched. *)
Lemma advance_not_yet dt e :
  (forall m, next_exit (threads e) = Some m -> dt < m) ->
  ioServiceDone_ (advance dt e) = ioServiceDone_ e /\
  trace (advance dt e) = trace e.
Proof.
  intros Hlt. unfold advance.
  assert (filter (fun th => exits_within dt th = true) (threads e) = []) as ->; [|done].
  destruct (next_exit (threads e)) as [m|] eqn:E.
  - specialize (Hlt m eq_refl). apply next_exit_lower in E.
    induction E as [|th ts Hth _ IH]; [done|].
    rewrite filter_cons. destruct (decide _) as [Hd|_]; [|exact IH].
    destruct th as [|l]; simpl in *; [done|]. apply Z.leb_le in Hd. lia.
  - apply next_exit_none in E.
    induction E as [|th ts -> _ IH]; [done|].
    rewrite filter_cons. by destruct (decide _).
Qed.

Lemma next_exit_stop d ts :
  ts <> [] -> is_Some (next_exit (map (stop_thread d) ts)).
Proof.
  destruct ts as [|[|l] ts]; [done| |]; intros _; simpl;
    by destruct (next_exit _); eexists.
Qed.

(** ** The condition variable *)

Lemma cond_wait_for_spec t e :
  0 < t ->
  (exists evs, trace (cond_wait_for t e).1 = trace e ++ evs) /\
  (cond_wait_for t e).2 =
    match (if ioServiceDone_ e then Some 0 else next_exit (threads e)) with
    | Some m => Z.min m t
    | None => t
    end /\
  (ioServiceDone_ (cond_wait_for t e).1 = true <->
   ioServiceDone_ e = true \/ exists m, next_exit (threads e) = Some m /\ m <= t).
Proof.
  intros Ht. unfold cond_wait_for.
  destruct (ioServiceDone_ e) eqn:Hd; simpl.
  { split; [exists []; by rewrite app_nil_r|]. split; [lia|]. rewrite Hd. tauto. }
  set (e0 := emit (WaitBegin (Some t)) e).
  assert (threads e0 = threads e) as Hth by done.
  split.
  { destruct (advance_trace
      match next_exit (threads e) with
      | Some m => if m <=? t then m else t
      | None => t
      end e0) as [evs ->].
    subst e0; simpl. eexists. rewrite <- !app_assoc. reflexivity. }
  destruct (next_exit (threads e)) as [m|] eqn:E.
  - destruct (Z.leb_spec m t) as [Hle|Hgt].
    + split; [lia|]. rewrite (advance_done m e0 m); [|by rewrite Hth|lia].
      split; [|done]. intros _. right. by exists m.
    + split; [lia|].
      destruct (advance_not_yet t e0) as [-> _].
      { rewrite Hth, E. intros ? [= <-]. lia. }
      simpl. rewrite Hd. split; [done|]. intros [?|(m' & [= <-] & ?)]; [done|lia].
  - split; [done|].
    destruct (advance_not_yet t e0) as [-> _].
    { rewrite Hth, E. by intros ? [=]. }
    simpl. rewrite Hd. split; [done|]. by intros [?|(m' & [=] & ?)].
Qed.

Lemma cond_wait_spec e :
  match (if ioServiceDone_ e then Some 0 else next_exit (threads e)) with
  | Some m =>
      exists e' evs, cond_wait e = Some (e', m) /\
        trace e' = trace e ++ evs /\ ioServiceDone_ e' = true /\
        closed_ e' = closed_ e /\ io_stopped e' = io_stopped e
  | None => cond_wait e = None
  end.
Proof.
  unfold cond_wait. destruct (ioServiceDone_ e) eqn:Hd.
  { exists e, []. by rewrite app_nil_r. }
  destruct (next_exit (threads e)) as [m|] eqn:E; [|done].
  set (e0 := emit (WaitBegin None) e).
  destruct (advance_trace m e0) as [evs Hevs].
  exists (emit WaitEnd (advance m e0)), ([WaitBegin None] ++ evs ++ [WaitEnd]).
  split; [reflexivity|]. simpl.
  rewrite (advance_done m e0 m), advance_closed, advance_stopped, Hevs; [|done|lia].
  subst e0; simpl. by rewrite <- !app_assoc.
Qed.

(** ** close *)

Lemma time_to_done_live d e :
  ioServiceDone_ e = true \/ threads e <> [] -> is_Some (time_to_done d e).
Proof.
  unfold time_to_done. intros [->|Hne]; [by eexists|].
  destruct (ioServiceDone_ e); [by eexists|]. by apply next_exit_stop.
Qed.

(** An unbounded close that finds [closed_] false returns exactly when
    the flag is true, and not at all when no thread is left to set it. *)
Lemma close_unbounded (d timeoutMs : Z) (e : ExecutorService) :
  closed_ e = false -> timeoutMs < 0 ->
  match time_to_done d e with
  | Some m =>
      exists e' evs, close d timeoutMs e = Some (e', m) /\
        trace e' = trace e ++ [ClosedSet; Lock; IoStop] ++ evs /\
        io_stopped e' = true /\
        ioServiceDone_ e' = true
  | None => close d timeoutMs e = None
  end.
Proof.
  intros Hc Ht. unfold close, compare_exchange_closed. rewrite Hc. simpl.
  set (e2 := io_stop d (emit Lock (emit ClosedSet (set_closed true e)))).
  assert (trace e2 = trace e ++ [ClosedSet; Lock; IoStop]) as Htr.
  { subst e2; simpl. by rewrite <- !app_assoc. }
  assert (ioServiceDone_ e2 = ioServiceDone_ e) as Hd2 by done.
  assert (threads e2 = map (stop_thread d) (threads e)) as Hth2 by done.
  destruct (Z.eqb_spec timeoutMs 0) as [->|_]; [lia|].
  destruct (Z.ltb_spec 0 timeoutMs) as [?|_]; [lia|].
  pose proof (cond_wait_spec e2) as Hw.
  unfold time_to_done. rewrite Hd2, Hth2 in Hw.
  destruct (if ioServiceDone_ e then Some 0 else _) as [m|].
  - destruct Hw as (e3 & evs & -> & Hevs & Hdone & _ & Hst).
    exists (emit Unlock e3), (evs ++ [Unlock]). split; [done|]. simpl.
    rewrite Hevs, Htr, Hdone, Hst. by rewrite <- !app_assoc.
  - by rewrite Hw.
Qed.

(** C3.  The first caller of [close(timeoutMs)] (the one that finds
    [closed_] false).  With [timeoutMs = 0] it signals stop and returns at
    once, without a wait.  With [timeoutMs > 0] it signals stop and then
    blocks for the smaller of [timeoutMs] and the time until
    [ioServiceDone_] is true, and the flag is true on return exactly when
    that time is within [timeoutMs].  With [timeoutMs < 0] it signals stop
    and returns after exactly the time until the flag is true, with the
    flag true; it never returns when no thread is left to set the flag.
    The flag does become true whenever it is true already or a worker
    thread exists. *)
Theorem close_first_caller (d timeoutMs : Z) (e : ExecutorService) :
  closed_ e = false ->
  (timeoutMs = 0 ->
     exists e', close d timeoutMs e = Some (e', 0) /\
       trace e' = trace e ++ [ClosedSet; IoStop] /\
       io_stopped e' = true /\
       ioServiceDone_ e' = ioServiceDone_ e) /\
  (0 < timeoutMs ->
     exists e' dt evs, close d timeoutMs e = Some (e', dt) /\
       trace e' = trace e ++ [ClosedSet; Lock; IoStop] ++ evs /\
       io_stopped e' = true /\
       dt = match time_to_done d e with
            | Some m => Z.min m timeoutMs
            | None => timeoutMs
            end /\
       (ioServiceDone_ e' = true <->
        exists m, time_to_done d e = Some m /\ m <= timeoutMs)) /\
  (timeoutMs < 0 ->
     match time_to_done d e with
     | Some m =>
         exists e' evs, close d timeoutMs e = Some (e', m) /\
           trace e' = trace e ++ [ClosedSet; Lock; IoStop] ++ evs /\
           io_stopped e' = true /\
           ioServiceDone_ e' = true
     | None => close d timeoutMs e = None
     end) /\
  (ioServiceDone_ e = true \/ threads e <> [] -> is_Some (time_to_done d e)).
Proof.
  intros Hc. unfold close, compare_exchange_closed. rewrite Hc. simpl.
  set (e1 := emit ClosedSet (set_closed true e)).
  set (e2 := io_stop d (emit Lock e1)).
  assert (trace e2 = trace e ++ [ClosedSet; Lock; IoStop]) as Htr.
  { subst e2 e1; simpl. by rewrite <- !app_assoc. }
  assert (ioServiceDone_ e2 = ioServiceDone_ e) as Hd2 by done.
  assert (threads e2 = map (stop_thread d) (threads e)) as Hth2 by done.
  split; [|split; [|split]].
  - intros ->. simpl. eexists. split; [reflexivity|]. simpl.
    by rewrite <- !app_assoc.
  - intros Ht. destruct (Z.eqb_spec timeoutMs 0) as [->|_]; [lia|].
    destruct (Z.ltb_spec 0 timeoutMs) as [_|?]; [|lia].
    destruct (cond_wait_for_spec timeoutMs e2 Ht) as ([evs Hevs] & Hdt & Hiff).
    destruct (cond_wait_for timeoutMs e2) as [e3 dt] eqn:E.
    simpl in Hevs, Hdt, Hiff.
    exists (emit Unlock e3), dt, (evs ++ [Unlock]).
    split; [done|]. split.
    { simpl. rewrite Hevs. by rewrite <- !app_assoc. }
    split.
    { simpl. unfold cond_wait_for in E. destruct (ioServiceDone_ e2).
      - by injection E as <- <-.
      - injection E as <- <-. simpl. by rewrite advance_stopped. }
    unfold time_to_done. split; [done|].
    simpl. rewrite Hiff. destruct (ioServiceDone_ e).
    + split; [intros _; exists 0; split; [done|lia]|by left].
    + split; [by intros [?|?]|by right].
  - intros Ht. pose proof (close_unbounded d timeoutMs e Hc Ht) as Hu.
    unfold close, compare_exchange_closed in Hu. rewrite Hc in Hu. exact Hu.
  - apply time_to_done_live.
Qed.

Lemma close_first_caller_witness :
  closed_ create = false /\
  exists e' dt evs, close 5 3 create = Some (e', dt) /\
    trace e' = trace create ++ [ClosedSet; Lock; IoStop] ++ evs /\
    io_stopped e' = true /\
    dt = match time_to_done 5 create with
         | Some m => Z.min m 3
         | None => 3
         end /\
    (ioServiceDone_ e' = true <-> exists m, time_to_done 5 create = Some m /\ m <= 3).
Proof.
  split; [reflexivity|].
  apply (close_first_caller 5 3 create); [reflexivity|lia].
Defined.

(** ** Counting the stop signals and the transitions of [closed_] *)

Lemma count_event_app ev l1 l2 :
  count_event ev (l1 ++ l2) = (count_event ev l1 + count_event ev l2)%nat.
Proof. unfold count_event. by rewrite filter_app, length_app. Qed.

Lemma count_event_snoc ev l x :
  count_event ev (l ++ [x]) =
  (count_event ev l + if decide (x = ev) then 1 else 0)%nat.
Proof.
  rewrite count_event_app. f_equal. unfold count_event.
  rewrite filter_cons. by destruct (decide (x = ev)).
Qed.

(** Decide, event by event, what a trace extension adds to a count. *)
Ltac count_events :=
  simpl; rewrite ?count_event_snoc;
  repeat match goal with
         | |- context [decide (?x = ?y)] => destruct (decide (x = y))
         end;
  try congruence; try lia; try (subst; simpl in *; congruence).

Lemma closer_caller ev : closer_event ev -> caller_event ev = true.
Proof. by intros [-> | ->]. Qed.

Lemma worker_exit_count ev ec e :
  caller_event ev = true ->
  count_event ev (trace (worker_exit ec e)) = count_event ev (trace e).
Proof.
  intros Hev. destruct ev; try discriminate Hev; destruct ec; count_events.
Qed.

Lemma run_exits_count ev n e :
  caller_event ev = true ->
  count_event ev (trace (run_exits n e)) = count_event ev (trace e).
Proof.
  intros Hev. revert e; induction n as [|n IH]; intros e; [done|].
  simpl. by rewrite IH, worker_exit_count.
Qed.

Lemma advance_count ev dt e :
  caller_event ev = true ->
  count_event ev (trace (advance dt e)) = count_event ev (trace e).
Proof. intros Hev. unfold advance. by rewrite run_exits_count. Qed.

Lemma cond_wait_for_count ev t e :
  caller_event ev = true ->
  count_event ev (trace (cond_wait_for t e).1) = count_event ev (trace e) /\
  closed_ (cond_wait_for t e).1 = closed_ e.
Proof.
  intros Hev. unfold cond_wait_for. destruct (ioServiceDone_ e); [done|].
  simpl. rewrite advance_closed, count_event_snoc, (advance_count _ _ _ Hev).
  split; [|done]. destruct ev; try discriminate Hev; count_events.
Qed.

Lemma cond_wait_count ev e e' dt :
  caller_event ev = true ->
  cond_wait e = Some (e', dt) ->
  count_event ev (trace e') = count_event ev (trace e) /\ closed_ e' = closed_ e.
Proof.
  intros Hev. unfold cond_wait. destruct (ioServiceDone_ e).
  { by intros [= <- <-]. }
  destruct (next_exit (threads e)) as [m|]; [|done]. intros [= <- <-].
  simpl. rewrite advance_closed, count_event_snoc, (advance_count _ _ _ Hev).
  split; [|done]. destruct ev; try discriminate Hev; count_events.
Qed.

(** A close that finds [closed_] true changes nothing, whatever its
    timeout. *)
Lemma close_closed d t e : closed_ e = true -> close d t e = Some (e, 0).
Proof. intros H. unfold close, compare_exchange_closed. by rewrite H. Qed.

(** A close that finds [closed_] false sets it and signals stop once. *)
Lemma close_open_count ev d t e e' dt :
  closer_event ev ->
  closed_ e = false ->
  close d t e = Some (e', dt) ->
  closed_ e' = true /\
  count_event ev (trace e') = S (count_event ev (trace e)).
Proof.
  intros Hev Hc. pose proof (closer_caller ev Hev) as Hcall.
  unfold close, compare_exchange_closed. rewrite Hc. simpl.
  destruct (t =? 0).
  { intros [= <- <-]. split; [done|]. destruct Hev as [-> | ->]; count_events. }
  set (e2 := io_stop d (emit Lock (emit ClosedSet (set_closed true e)))).
  assert (closed_ e2 = true /\ count_event ev (trace e2) = S (count_event ev (trace e)))
    as [Hc2 Hn2].
  { split; [done|]. subst e2. destruct Hev as [-> | ->]; count_events. }
  destruct (0 <? t).
  - pose proof (cond_wait_for_count ev t e2 Hcall) as [Hn Hcl].
    destruct (cond_wait_for t e2) as [e3 dt3]. intros [= <- <-]. simpl in *.
    rewrite Hcl, count_event_snoc, Hn, Hn2. split; [done|].
    destruct Hev as [-> | ->]; count_events.
  - destruct (cond_wait e2) as [[e3 dt3]|] eqn:E; [|done]. intros [= <- <-].
    destruct (cond_wait_count ev e2 e3 dt3 Hcall E) as [Hn Hcl]. simpl.
    rewrite Hcl, count_event_snoc, Hn, Hn2. split; [done|].
    destruct Hev as [-> | ->]; count_events.
Qed.

Lemma worker_fail_count ev msg e :
  caller_event ev = true ->
  count_event ev (trace (worker_fail msg e)) = count_event ev (trace e) /\
  closed_ (worker_fail msg e) = closed_ e.
Proof.
  intros Hev. unfold worker_fail. destruct (threads e); [done|].
  by rewrite worker_exit_count, worker_exit_closed.
Qed.

(** One action: [closed_] stays true once true and then nothing is
    counted; from false, either nothing happens to it or it is set and one
    event is counted. *)
Lemma act_count ev a e e1 :
  closer_event ev ->
  act a e = Some e1 ->
  (closed_ e1 = closed_ e /\ count_event ev (trace e1) = count_event ev (trace e)) \/
  (closed_ e = false /\ closed_ e1 = true /\
   count_event ev (trace e1) = S (count_event ev (trace e))).
Proof.
  intros Hev. destruct a as [d t|d| |dt|msg]; simpl.
  - destruct (closed_ e) eqn:Hc.
    + rewrite (close_closed d t e Hc). intros [= <-]. by left.
    + destruct (close d t e) as [[e' dt]|] eqn:E; [|done]. intros [= <-].
      right. split; [done|]. by eapply close_open_count.
  - unfold destroy. destruct (closed_ e) eqn:Hc.
    + rewrite (close_closed d 0 e Hc). intros [= <-]. by left.
    + destruct (close d 0 e) as [[e' dt]|] eqn:E; [|done]. intros [= <-].
      right. split; [done|]. by eapply close_open_count.
  - intros [= <-]. left. split; [done|]. unfold postWork.
    destruct Hev as [-> | ->]; count_events.
  - intros [= <-]. left. rewrite advance_closed, advance_count; [done|].
    by apply closer_caller.
  - intros [= <-]. left.
    by destruct (worker_fail_count ev msg e (closer_caller ev Hev)) as [-> ->].
Qed.

Lemma run_actions_count ev acts e e' :
  closer_event ev ->
  run_actions acts e = Some e' ->
  (count_event ev (trace e') <=
   count_event ev (trace e) + if closed_ e then 0 else 1)%nat /\
  (closed_ e = true -> closed_ e' = true).
Proof.
  intros Hev. revert e; induction acts as [|a acts IH]; intros e; simpl.
  { intros [= <-]. split; [lia|done]. }
  destruct (act a e) as [e1|] eqn:E; [|done]. intros Hrun.
  destruct (IH e1 Hrun) as [Hn Hc].
  destruct (act_count ev a e e1 Hev E) as [[Hc1 Hn1]|(Hc0 & Hc1 & Hn1)].
  - rewrite Hc1, Hn1 in *. done.
  - rewrite Hc0, Hc1, Hn1 in *. split; [lia|done].
Qed.

(** *** Racing closers *)

(** A thread alone goes through [close] in at most three steps. *)
Lemma close_steps_close d t e : fst <$> close d t e = close_steps d t e.
Proof.
  unfold close, close_steps, closer_step, compare_exchange_closed.
  destruct (closed_ e); simpl; [done|].
  destruct (t =? 0); simpl; [done|].
  destruct (0 <? t); simpl.
  - by destruct (cond_wait_for t _).
  - by destruct (cond_wait _) as [[??]|].
Qed.

Lemma pending_insert pcs i pc pc' :
  pcs !! i = Some pc ->
  (pending_stops (<[i := pc']> pcs) + (if is_stop pc then 1 else 0) =
   pending_stops pcs + (if is_stop pc' then 1 else 0))%nat.
Proof.
  unfold pending_stops. revert i; induction pcs as [|x pcs IH]; intros i; [done|].
  destruct i as [|i]; simpl.
  - intros [= ->]. rewrite !filter_cons.
    destruct (decide (is_stop pc' = true)) as [->|Hn], (decide (is_stop pc = true)) as [->|Hm];
      simpl; try lia.
    + apply not_true_is_false in Hm. rewrite Hm. lia.
    + apply not_true_is_false in Hn. rewrite Hn. lia.
    + apply not_true_is_false in Hn, Hm. rewrite Hn, Hm. lia.
  - intros Hi. specialize (IH i Hi). rewrite !filter_cons.
    destruct (decide (is_stop x = true)); simpl; lia.
Qed.

Lemma pending_all_cas pcs :
  Forall (fun pc => is_cas pc = true) pcs -> pending_stops pcs = 0%nat.
Proof.
  unfold pending_stops. induction 1 as [|pc pcs Hpc _ IH]; [done|].
  rewrite filter_cons. destruct pc; try discriminate Hpc.
  by destruct (decide _).
Qed.

Lemma closer_step_inv c0 s0 b0 d pcs i pc pc' e e' :
  pcs !! i = Some pc ->
  closer_step d pc e = Some (pc', e') ->
  race_inv c0 s0 b0 (pcs, e) ->
  race_inv c0 s0 b0 (<[i := pc']> pcs, e').
Proof.
  intros Hi Hstep (Hb & c & Hc0 & Hc1 & Hcb & HnC & HnS). simpl in *.
  pose proof (pending_insert pcs i pc pc' Hi) as Hp.
  unfold race_inv. cbn [fst snd].
  destruct pc as [t|t|t|]; simpl in Hstep, Hp.
  - unfold compare_exchange_closed in Hstep. destruct (closed_ e) eqn:Hcl.
    + injection Hstep as <- <-. split; [done|]. exists c. simpl in *.
      repeat split; first [done | congruence | lia].
    + injection Hstep as <- <-. specialize (Hc0 eq_refl). subst c.
      split; [intros ->; by specialize (Hb eq_refl)|]. exists 1%nat. simpl in *.
      split; [done|]. split; [lia|].
      split; [intros ->; by specialize (Hb eq_refl)|].
      split; [rewrite count_event_snoc; destruct (decide _); [lia|done]|].
      rewrite count_event_snoc. destruct (decide _); [done|]. lia.
  - assert (closed_ e' = closed_ e /\
            count_event ClosedSet (trace e') = count_event ClosedSet (trace e) /\
            count_event IoStop (trace e') = S (count_event IoStop (trace e)) /\
            is_stop pc' = false) as (Hcl & H1 & H2 & Hpc').
    { destruct (t =? 0); injection Hstep as <- <-; repeat split; count_events. }
    rewrite Hpc' in Hp. simpl in Hp. split; [by rewrite Hcl|]. exists c. simpl.
    rewrite Hcl, H1, H2. repeat split; try done. lia.
  - assert (closed_ e' = closed_ e /\
            count_event ClosedSet (trace e') = count_event ClosedSet (trace e) /\
            count_event IoStop (trace e') = count_event IoStop (trace e) /\
            is_stop pc' = false) as (Hcl & H1 & H2 & Hpc').
    { destruct (0 <? t).
      - injection Hstep as <- <-.
        destruct (cond_wait_for_count ClosedSet t e eq_refl) as [H1 Hcl].
        destruct (cond_wait_for_count IoStop t e eq_refl) as [H2 _].
        cbn [closed_ trace emit]. rewrite !count_event_snoc, H1, H2, Hcl.
        repeat split; count_events.
      - destruct (cond_wait e) as [[e3 dt]|] eqn:E; [|done].
        injection Hstep as <- <-.
        destruct (cond_wait_count ClosedSet e e3 dt eq_refl E) as [H1 Hcl].
        destruct (cond_wait_count IoStop e e3 dt eq_refl E) as [H2 _].
        cbn [closed_ trace emit]. rewrite !count_event_snoc, H1, H2, Hcl.
        repeat split; count_events. }
    rewrite Hpc' in Hp. simpl in Hp. split; [by rewrite Hcl|]. exists c. simpl.
    rewrite Hcl, H1, H2. repeat split; try done. lia.
  - done.
Qed.

Lemma sched_step_inv c0 s0 b0 d s st :
  race_inv c0 s0 b0 st -> race_inv c0 s0 b0 (sched_step d s st).
Proof.
  destruct st as [pcs e]. intros Hinv. destruct s as [i| |dt|msg]; simpl.
  - destruct (pcs !! i) as [pc|] eqn:Hi; [|done].
    destruct (closer_step d pc e) as [[pc' e']|] eqn:Hstep; [|done].
    by eapply closer_step_inv.
  - destruct Hinv as (Hb & c & Hc0 & Hc1 & Hcb & HnC & HnS).
    unfold race_inv. cbn [fst snd] in *. split; [done|].
    exists c. unfold postWork; simpl. rewrite !count_event_snoc.
    repeat split; try done; count_events.
  - destruct Hinv as (Hb & c & Hc0 & Hc1 & Hcb & HnC & HnS).
    unfold race_inv. cbn [fst snd] in *.
    rewrite advance_closed, !advance_count by done.
    split; [done|]. by exists c.
  - destruct Hinv as (Hb & c & Hc0 & Hc1 & Hcb & HnC & HnS).
    unfold race_inv. cbn [fst snd] in *.
    destruct (worker_fail_count ClosedSet msg e eq_refl) as [H1 Hcl].
    destruct (worker_fail_count IoStop msg e eq_refl) as [H2 _].
    rewrite Hcl, H1, H2. split; [done|]. by exists c.
Qed.

Lemma run_sched_inv c0 s0 b0 d sched st :
  race_inv c0 s0 b0 st -> race_inv c0 s0 b0 (run_sched d sched st).
Proof.
  unfold run_sched. revert st; induction sched as [|s sched IH]; intros st Hinv; [done|].
  simpl. by apply IH, sched_step_inv.
Qed.

(** C4.  A close that arrives when [closed_] is true returns at once and
    leaves the executor as it found it, for every timeout.  Over any
    sequence of closes, destructor runs, posted work, passing time and
    worker failures on one executor, [closed_] goes from false to true at
    most once and [io_service_.stop()] is called at most once, and not at
    all when [closed_] was true at the start.  The same holds when any
    number of threads race through [close], each with its own timeout, in
    any interleaving of their atomic actions with each other and with the
    environment; a thread alone takes the steps of [close]. *)
Theorem close_at_most_once :
  (forall d timeoutMs e, closed_ e = true -> close d timeoutMs e = Some (e, 0)) /\
  (forall acts e e', run_actions acts e = Some e' ->
     (count_event ClosedSet (trace e') <=
      count_event ClosedSet (trace e) + if closed_ e then 0 else 1)%nat /\
     (count_event IoStop (trace e') <=
      count_event IoStop (trace e) + if closed_ e then 0 else 1)%nat /\
     (closed_ e = true -> closed_ e' = true)) /\
  (forall d sched pcs e,
     Forall (fun pc => is_cas pc = true) pcs ->
     (count_event ClosedSet (trace (run_sched d sched (pcs, e)).2) <=
      count_event ClosedSet (trace e) + if closed_ e then 0 else 1)%nat /\
     (count_event IoStop (trace (run_sched d sched (pcs, e)).2) <=
      count_event IoStop (trace e) + if closed_ e then 0 else 1)%nat) /\
  (forall d timeoutMs e, fst <$> close d timeoutMs e = close_steps d timeoutMs e).
Proof.
  split; [apply close_closed|]. split; [|split; [|apply close_steps_close]].
  - intros acts e e' Hrun.
    destruct (run_actions_count ClosedSet acts e e' (or_introl eq_refl) Hrun) as [H1 H2].
    destruct (run_actions_count IoStop acts e e' (or_intror eq_refl) Hrun) as [H3 _].
    done.
  - intros d sched pcs e Hcas.
    assert (race_inv (count_event ClosedSet (trace e)) (count_event IoStop (trace e))
                     (closed_ e) (pcs, e)) as Hinv.
    { split; [done|]. exists 0%nat. simpl.
      rewrite (pending_all_cas pcs Hcas). repeat split; try done; lia. }
    apply (run_sched_inv _ _ _ d sched) in Hinv.
    destruct Hinv as (_ & c & _ & Hc1 & Hcb & HnC & HnS).
    destruct (closed_ e); [specialize (Hcb eq_refl)|]; split; lia.
Qed.

Lemma close_at_most_once_witness :
  closed_ (io_stop 5 (emit ClosedSet (set_closed true create))) = true /\
  close 7 (-1) (io_stop 5 (emit ClosedSet (set_closed true create))) =
  Some (io_stop 5 (emit ClosedSet (set_closed true create)), 0).
Proof.
  split; [reflexivity|].
  apply (proj1 close_at_most_once 7 (-1)). reflexivity.
Defined.

(** A close leaves the count of every caller event other than its own two
    as it was. *)
Lemma close_count_other ev d t e e' dt :
  caller_event ev = true -> ev <> ClosedSet -> ev <> IoStop ->
  close d t e = Some (e', dt) ->
  count_event ev (trace e') = count_event ev (trace e).
Proof.
  intros Hev H1 H2. unfold close, compare_exchange_closed.
  destruct (closed_ e); simpl; [by intros [= <- <-]|].
  destruct (t =? 0).
  { intros [= <- <-]. count_events. }
  set (e2 := io_stop d (emit Lock (emit ClosedSet (set_closed true e)))).
  assert (count_event ev (trace e2) = count_event ev (trace e)) as Hn2.
  { subst e2. count_events. }
  destruct (0 <? t).
  - pose proof (cond_wait_for_count ev t e2 Hev) as [Hn _].
    destruct (cond_wait_for t e2) as [e3 dt3]. intros [= <- <-].
    cbn [fst] in Hn. cbn [trace emit].
    rewrite count_event_snoc, Hn, Hn2. count_events.
  - destruct (cond_wait e2) as [[e3 dt3]|] eqn:E; [|done]. intros [= <- <-].
    destruct (cond_wait_count ev e2 e3 dt3 Hev E) as [Hn _]. cbn [trace emit].
    rewrite count_event_snoc, Hn, Hn2. count_events.
Qed.

(** ** The destructor *)

(** C1 (as amended).  The destructor is [close(0)]: it never waits.  If
    [closed_] was false it sets it, signals stop once and returns at
    once; if [closed_] was true it does nothing.  Either way
    [ioServiceDone_] is what it was before the call. *)
Theorem destroy_is_nonblocking_close (d : Z) (e : ExecutorService) :
  destroy d e = close d 0 e /\
  exists e', destroy d e = Some (e', 0) /\
    trace e' = trace e ++ (if closed_ e then [] else [ClosedSet; IoStop]) /\
    closed_ e' = true /\
    ioServiceDone_ e' = ioServiceDone_ e.
Proof.
  split; [done|]. unfold destroy, close, compare_exchange_closed.
  destruct (closed_ e) eqn:Hc; simpl.
  - exists e. by rewrite app_nil_r.
  - eexists. split; [reflexivity|]. simpl. by rewrite <- !app_assoc.
Qed.

(** C1 (as stated) fails.  An executor that was constructed but whose
    thread was never started (in [create], when [start] throws because no
    thread can be made) is destroyed with [ioServiceDone_] false: the
    destructor returns at once and the flag is still false, where
    [close(-1)] would wait for ever.  On an executor whose worker has left
    [run] the two differ as well: the destructor does not take the
    mutex. *)
Lemma destroy_not_unbounded_close :
  (exists e', destroy 5 new_executor = Some (e', 0) /\
     ioServiceDone_ e' = false /\
     trace e' = [ClosedSet; IoStop]) /\
  close 5 (-1) new_executor = None /\
  (exists e1 e2,
     destroy 5 (worker_fail "Operation canceled" create) = Some (e1, 0) /\
     close 5 (-1) (worker_fail "Operation canceled" create) = Some (e2, 0) /\
     count_event Lock (trace e1) = 1%nat /\
     count_event Lock (trace e2) = 2%nat).
Proof.
  split; [|split].
  - eexists. split; [reflexivity|]. by split.
  - reflexivity.
  - eexists _, _. split; [reflexivity|]. split; [reflexivity|]. by split.
Qed.

(** ** restart *)

Lemma restart_total d e :
  closed_ e = true \/ ioServiceDone_ e = true \/ threads e <> [] ->
  is_Some (restart d e).
Proof.
  intros H. unfold restart. destruct (closed_ e) eqn:Hc.
  { rewrite (close_closed d (-1) e Hc). by eexists. }
  destruct H as [?|H]; [done|].
  pose proof (close_unbounded d (-1) e Hc ltac:(lia)) as Hneg.
  destruct (time_to_done_live d e H) as [m Hm].
  rewrite Hm in Hneg. destruct Hneg as (e' & evs & -> & _). by eexists.
Qed.

(** C2 (as amended).  [restart] first performs [close(-1)]: a no-op when
    [closed_] is true already, and otherwise an unbounded wait that ends
    exactly when [ioServiceDone_] is true (and never when no thread is
    left to set it).  It then clears [closed_], clears [ioServiceDone_]
    under the mutex, resets the io_service and starts one new worker
    thread.  On return both flags are false, the io_service is not
    stopped and [createDeadlineTimer] returns a timer.  [restart] returns
    whenever [closed_] or [ioServiceDone_] is true or a worker exists. *)
Theorem restart_closes_then_rearms (d : Z) (e : ExecutorService) :
  (closed_ e = true -> close d (-1) e = Some (e, 0)) /\
  (closed_ e = false ->
     match time_to_done d e with
     | Some m =>
         exists e1, close d (-1) e = Some (e1, m) /\ ioServiceDone_ e1 = true
     | None => restart d e = None
     end) /\
  (forall e1 dt, close d (-1) e = Some (e1, dt) ->
     exists e', restart d e = Some (e', dt) /\
       trace e' = trace e1 ++
         [ClosedClear; Lock; DoneClear; Unlock; IoRestart; ThreadStart;
          LogDebug "Run io_service in a single thread"] /\
       closed_ e' = false /\
       ioServiceDone_ e' = false /\
       io_stopped e' = false /\
       threads e' = threads e1 ++ [Running] /\
       createDeadlineTimer None d e' =
         Some (Returned (length (trace e')), emit (IoObject "deadline_timer") e', 0)) /\
  (closed_ e = true \/ ioServiceDone_ e = true \/ threads e <> [] ->
   is_Some (restart d e)).
Proof.
  split; [apply close_closed|]. split; [|split; [|apply restart_total]].
  - intros Hc.
    pose proof (close_unbounded d (-1) e Hc ltac:(lia)) as Hneg.
    destruct (time_to_done d e) as [m|].
    + destruct Hneg as (e1 & evs & ? & _ & _ & ?). by exists e1.
    + unfold restart. by rewrite Hneg.
  - intros e1 dt Hcl. unfold restart. rewrite Hcl.
    eexists. split; [reflexivity|]. simpl.
    by rewrite <- !app_assoc.
Qed.

Lemma restart_closes_then_rearms_witness :
  closed_ create = false /\
  match time_to_done 5 create with
  | Some m =>
      exists e1, close 5 (-1) create = Some (e1, m) /\ ioServiceDone_ e1 = true
  | None => restart 5 create = None
  end.
Proof.
  split; [reflexivity|].
  apply (restart_closes_then_rearms 5 create). reflexivity.
Defined.

(** C2 (as stated) fails: restarting a freshly created executor whose
    worker needs 5 ms to leave [run] blocks for those 5 ms in an unbounded
    wait, where the restart of the specification returns at once and
    leaves the old worker inside [run] next to the new one. *)
Lemma restart_is_not_nonblocking :
  (exists e', restart 5 create = Some (e', 5) /\
     WaitBegin None ∈ trace e' /\ threads e' = [Running]) /\
  (exists e', restart_as_specified 5 create = Some (e', 0) /\
     threads e' = [Draining 5; Running]) /\
  restart 5 create <> restart_as_specified 5 create.
Proof.
  split; [|split].
  - eexists. split; [reflexivity|]. split; [|done].
    simpl. repeat (first [by left | right]).
  - eexists. split; [reflexivity|]. done.
  - discriminate.
Qed.

(** ** Factory operations *)

Lemma restart_count d e e1 dt :
  restart d e = Some (e1, dt) ->
  count_event IoRestart (trace e1) = S (count_event IoRestart (trace e)) /\
  count_event ThreadStart (trace e1) = S (count_event ThreadStart (trace e)) /\
  forall kind,
    count_event (IoObject kind) (trace e1) = count_event (IoObject kind) (trace e).
Proof.
  unfold restart. destruct (close d (-1) e) as [[e0 dt0]|] eqn:E; [|done].
  intros [= <- <-].
  pose proof (close_count_other IoRestart d (-1) e e0 dt0 eq_refl
                ltac:(done) ltac:(done) E) as H1.
  pose proof (close_count_other ThreadStart d (-1) e e0 dt0 eq_refl
                ltac:(done) ltac:(done) E) as H2.
  split; [|split]; [| |intros kind].
  - rewrite <- H1. count_events.
  - rewrite <- H2. count_events.
  - rewrite <- (close_count_other (IoObject kind) d (-1) e e0 dt0 eq_refl
                  ltac:(done) ltac:(done) E).
    count_events.
Qed.

Lemma try_new_failure kind prefix what d e :
  restart_then_throw prefix what d e (try_new kind prefix (Some what) d e).
Proof.
  unfold restart_then_throw, try_new.
  destruct (restart d e) as [[e1 dt]|] eqn:E; [|done].
  split; [done|]. by apply (restart_count d e e1 dt).
Qed.

(** C5.  When the system refuses the resource, [createSocket],
    [createTcpResolver] and [createDeadlineTimer] each restart the
    executor exactly once and then throw a runtime_error whose message is
    their own prefix followed by the description of the original failure;
    nothing is created and nothing is tried again.  The restart, and with
    it the throw, happens whenever [closed_] or [ioServiceDone_] is true or
    a worker exists.  [createTlsSocket] leaves the executor as it is on
    every path and lets a failure through unchanged. *)
Theorem factories_restart_once_then_throw (d : Z) (e : ExecutorService) (what : string) :
  restart_then_throw "Failed to create socket: " what d e
    (createSocket (Some what) d e) /\
  restart_then_throw "Failed to create resolver: " what d e
    (createTcpResolver (Some what) d e) /\
  restart_then_throw "Failed to create deadline_timer: " what d e
    (createDeadlineTimer (Some what) d e) /\
  (closed_ e = true \/ ioServiceDone_ e = true \/ threads e <> [] ->
   is_Some (restart d e)) /\
  (forall sys socket ctx, (createTlsSocket sys socket ctx e).2 = e) /\
  (forall socket ctx,
     createTlsSocket (Some what) socket ctx e = (Thrown (system_error what), e) /\
     createTlsSocket None socket ctx e = (Returned (socket, ctx), e)).
Proof.
  split; [apply try_new_failure|]. split; [apply try_new_failure|].
  split; [apply try_new_failure|]. split; [apply restart_total|].
  split; [by intros [?|] ? ?|done].
Qed.

Lemma factories_restart_once_then_throw_witness :
  (closed_ create = true \/ ioServiceDone_ create = true \/ threads create <> []) /\
  is_Some (restart 5 create).
Proof.
  split; [right; right; discriminate|].
  apply (factories_restart_once_then_throw 5 create "Too many open files").
  right; right; discriminate.
Defined.

(** ** The worker thread *)

(** C6.  When [run] returns, with or without an error, the worker logs
    one line, then takes the mutex, sets [ioServiceDone_], releases the
    mutex and notifies all waiters, and does nothing else: [closed_], the
    io_service and the set of threads are as before, so no restart takes
    place, and the result is a state, never an exception for a caller.  A
    worker whose [run] fails leaves the thread list and sets the flag in
    the same way. *)
Theorem worker_always_sets_done (ec : option string) (e : ExecutorService) :
  trace (worker_exit ec e) =
    trace e ++
    [match ec with
     | Some msg => LogError ("Failed to run io_service: " +:+ msg)
     | None => LogDebug "Event loop of ExecutorService exits successfully"
     end; Lock; DoneSet; Unlock; NotifyAll] /\
  ioServiceDone_ (worker_exit ec e) = true /\
  closed_ (worker_exit ec e) = closed_ e /\
  io_stopped (worker_exit ec e) = io_stopped e /\
  threads (worker_exit ec e) = threads e /\
  (forall msg th rest, threads e = th :: rest ->
     worker_fail msg e = worker_exit (Some msg) (set_threads rest e) /\
     threads (worker_fail msg e) = rest /\
     ioServiceDone_ (worker_fail msg e) = true /\
     count_event ThreadStart (trace (worker_fail msg e)) =
       count_event ThreadStart (trace e) /\
     count_event IoRestart (trace (worker_fail msg e)) =
       count_event IoRestart (trace e)).
Proof.
  split; [destruct ec; simpl; by rewrite <- !app_assoc|].
  rewrite worker_exit_done, worker_exit_closed, worker_exit_stopped,
    worker_exit_threads.
  do 4 (split; [done|]).
  intros msg th rest Hth.
  destruct (worker_fail_count ThreadStart msg e eq_refl) as [-> _].
  destruct (worker_fail_count IoRestart msg e eq_refl) as [-> _].
  unfold worker_fail. rewrite Hth. done.
Qed.

Lemma worker_always_sets_done_witness :
  threads create = [Running] /\
  threads (worker_fail "Operation canceled" create) = [] /\
  ioServiceDone_ (worker_fail "Operation canceled" create) = true.
Proof.
  split; [reflexivity|].
  destruct (worker_always_sets_done None create) as (_ & _ & _ & _ & _ & H).
  destruct (H "Operation canceled" Running [] eq_refl) as (_ & H1 & H2 & _).
  exact (conj H1 H2).
Defined.

(** ** Latencies stay non-negative *)

Lemma run_exits_wf n e : wf_executor e -> wf_executor (run_exits n e).
Proof. unfold wf_executor. by rewrite run_exits_threads. Qed.

Lemma advance_wf dt e : wf_executor (advance dt e).
Proof.
  unfold advance. apply run_exits_wf. unfold wf_executor; simpl.
  apply Forall_fmap, Forall_forall. intros th Hth.
  apply list_elem_of_filter in Hth as [Hth _].
  destruct th as [|l]; simpl in *; [done|].
  apply Z.leb_gt in Hth. lia.
Qed.

Lemma io_stop_wf d e : 0 <= d -> wf_executor e -> wf_executor (io_stop d e).
Proof.
  intros Hd Hwf. unfold wf_executor, io_stop; simpl.
  apply Forall_fmap. eapply Forall_impl; [exact Hwf|].
  by intros [|l].
Qed.

Lemma next_exit_nonneg e m :
  wf_executor e -> next_exit (threads e) = Some m -> 0 <= m.
Proof.
  intros Hwf Hm. apply next_exit_attained in Hm.
  by apply (proj1 (Forall_forall _ _) Hwf) in Hm.
Qed.

(** A close with a non-negative timeout returns within that timeout. *)
Lemma close_bounded d t e :
  wf_executor e -> 0 <= d -> 0 <= t ->
  exists e' dt, close d t e = Some (e', dt) /\ 0 <= dt <= t /\ wf_executor e'.
Proof.
  intros Hwf Hd Ht. unfold close, compare_exchange_closed.
  destruct (closed_ e); simpl.
  { exists e, 0. split; [done|]. split; [lia|done]. }
  destruct (Z.eqb_spec t 0) as [->|Hne].
  { eexists _, 0. split; [done|]. split; [lia|]. by apply io_stop_wf. }
  destruct (Z.ltb_spec 0 t) as [_|?]; [|lia].
  set (e2 := io_stop d (emit Lock (emit ClosedSet (set_closed true e)))).
  assert (wf_executor e2) as Hwf2 by by apply io_stop_wf.
  unfold cond_wait_for. destruct (ioServiceDone_ e2).
  { eexists _, 0. split; [done|]. split; [lia|done]. }
  eexists _, _. split; [done|]. split; [|apply advance_wf].
  destruct (next_exit (threads e2)) as [m|] eqn:E; [|lia].
  change (threads (emit (WaitBegin (Some t)) e2)) with (threads e2).
  apply (next_exit_nonneg e2) in E; [|done].
  destruct (Z.leb_spec m t); lia.
Qed.

(** ** Closing the pool *)

Lemma close_at_bounded d t ex (h : Heap) :
  Forall wf_executor h -> (ex < length h)%nat -> 0 <= d -> 0 <= t ->
  exists h' dt, close_at d t ex h = Some (h', dt) /\ 0 <= dt <= t /\
    Forall wf_executor h' /\ length h' = length h.
Proof.
  intros Hwf Hex Hd Ht. unfold close_at.
  destruct (lookup_lt_is_Some_2 h ex Hex) as [e He]. rewrite He.
  destruct (close_bounded d t e) as (e' & dt & -> & Hdt & Hwf'); [|done|done|].
  { by eapply (proj1 (Forall_lookup _ _) Hwf). }
  eexists _, dt. split; [done|]. split; [done|]. split.
  - apply Forall_insert; [|done]. apply Forall_fmap, Forall_forall.
    intros ? _. apply advance_wf.
  - by rewrite length_insert, length_map.
Qed.

Lemma slots_valid_tail slot rest (h h' : Heap) :
  slots_valid (slot :: rest) h -> length h' = length h -> slots_valid rest h'.
Proof. intros Hv Hlen i ex Hi. rewrite Hlen. by apply (Hv (S i)). Qed.


Lemma close_slots_spec drain slots st :
  (forall ex, 0 <= drain ex) ->
  slots_valid slots (pc_heap st) ->
  Forall wf_executor (pc_heap st) ->
  0 <= leftTimeout_ (pc_timer st) ->
  exists st' new,
    close_slots drain slots st = Some (replicate (length slots) None, st') /\
    pc_calls st' = pc_calls st ++ new /\
    call_handle <$> new = omap id slots /\
    budget_ok (leftTimeout_ (pc_timer st)) new /\
    pc_clock st' = pc_clock st + total_elapsed new.
Proof.
  intros Hdrain. revert st; induction slots as [|slot rest IH]; intros st Hv Hwf Hleft.
  { exists st, []. simpl. rewrite app_nil_r. repeat split; try done; lia. }
  simpl. destruct slot as [ex|]; simpl.
  - destruct (close_at_bounded (drain ex) (leftTimeout_ (pc_timer st)) ex (pc_heap st))
      as (h' & dt & -> & Hdt & Hwf' & Hlen); [done|by apply (Hv O)|done|done|].
    unfold getLeftTimeout; simpl.
    set (st1 := mkPoolClose h' _ _ _).
    destruct (IH st1) as (st' & new & -> & Hcalls & Hh & Hb & Hclock).
    { by eapply slots_valid_tail. }
    { done. }
    { simpl. lia. }
    exists st', (mkCall ex (leftTimeout_ (pc_timer st)) dt :: new).
    split; [done|]. split; [by rewrite Hcalls; simpl; rewrite <- app_assoc|].
    split; [simpl; f_equal; exact Hh|]. split.
    + simpl. repeat split; try lia.
      replace (leftTimeout_ (pc_timer st) - dt)
        with (leftTimeout_ (pc_timer st1)); [done|].
      simpl. lia.
    + rewrite Hclock. simpl. lia.
  - set (st1 := mkPoolClose _ _ _ _).
    destruct (IH st1) as (st' & new & -> & Hcalls & Hh & Hb & Hclock).
    { by eapply slots_valid_tail. }
    { done. }
    { simpl. lia. }
    exists st', new. split; [done|]. split; [done|]. split; [done|]. split; [|done].
    replace (leftTimeout_ (pc_timer st)) with (leftTimeout_ (pc_timer st1)); [done|].
    simpl. lia.
Qed.



(** ** The slot index *)

Lemma to_int_small x : 0 <= x <= INT_MAX -> to_int x = x.
Proof. unfold to_int, INT_MAX. intros. rewrite Z.mod_small; lia. Qed.

Lemma to_size_t_small x : 0 <= x <= INT_MAX -> to_size_t x = x.
Proof. unfold to_size_t, INT_MAX. intros. rewrite Z.mod_small; lia. Qed.

(** With at least one slot, and no more than an int can count, the index
    is the counter, as a size_t, modulo the number of slots, and lies in
    range. *)
Lemma slot_index_in_range p :
  (1 <= length (executors_ p))%nat ->
  Z.of_nat (length (executors_ p)) <= INT_MAX ->
  exists i : nat,
    slot_index p = Some (Z.of_nat i) /\
    Z.of_nat i = to_size_t (executorIdx_ p) mod Z.of_nat (length (executors_ p)) /\
    (i < length (executors_ p))%nat.
Proof.
  intros Hn Hmax. unfold slot_index.
  set (n := Z.of_nat (length (executors_ p))) in *.
  destruct (Z.eqb_spec n 0) as [?|_]; [lia|].
  pose proof (Z.mod_pos_bound (to_size_t (executorIdx_ p)) n ltac:(lia)) as Hb.
  exists (Z.to_nat (to_size_t (executorIdx_ p) mod n)).
  rewrite Z2Nat.id by lia. rewrite to_int_small by lia.
  repeat split. lia.
Qed.

Lemma slot_at_in_range (i : nat) (slots : list (option nat)) :
  (i < length slots)%nat -> Z.of_nat (length slots) <= INT_MAX ->
  slot_at (Z.of_nat i) slots = slots !! i.
Proof.
  intros Hi Hmax. unfold slot_at. rewrite to_size_t_small by lia.
  destruct (Z.ltb_spec (Z.of_nat i) (Z.of_nat (length slots))); [|lia].
  by rewrite Nat2Z.id.
Qed.

(** [get] with the index known: what it returns and what it changes. *)
Lemma get_at p (h : Heap) (i : nat) :
  slot_index p = Some (Z.of_nat i) ->
  (i < length (executors_ p))%nat ->
  Z.of_nat (length (executors_ p)) <= INT_MAX ->
  get p h =
  match executors_ p !! i with
  | Some (Some ex) =>
      Some (ex, mkProvider (executors_ p) (to_int (executorIdx_ p + 1)), h)
  | Some None =>
      Some (length h,
            mkProvider (<[i := Some (length h)]> (executors_ p))
                       (to_int (executorIdx_ p + 1)),
            h ++ [create])
  | None => None
  end.
Proof.
  intros Hidx Hi Hmax. unfold get. rewrite Hidx, slot_at_in_range by done.
  rewrite to_size_t_small by lia. rewrite Nat2Z.id. done.
Qed.

(** ** get *)

(** C10.  A pool made with [nthreads = 0] has no slot, the index of [get]
    is then a modulo by zero and [get] has no defined result.  For every
    pool with at least one slot (and no more than an int can count),
    whatever the counter, the index is in range and [get] returns the
    handle that the slot at that index holds after the call; the handle
    is the address of an allocated executor when those already in the
    slots are. *)
Theorem get_needs_a_slot :
  (exists p0, new_provider 0 = Some p0 /\ executors_ p0 = [] /\
     slot_index p0 = None /\ forall h : Heap, get p0 h = None) /\
  (forall p (h : Heap),
     (1 <= length (executors_ p))%nat ->
     Z.of_nat (length (executors_ p)) <= INT_MAX ->
     exists (i : nat) ex p' (h' : Heap),
       slot_index p = Some (Z.of_nat i) /\
       (i < length (executors_ p))%nat /\
       get p h = Some (ex, p', h') /\
       executors_ p' !! i = Some (Some ex) /\
       length (executors_ p') = length (executors_ p) /\
       (slots_valid (executors_ p) h ->
        slots_valid (executors_ p') h' /\ is_Some (h' !! ex))).
Proof.
  split.
  { eexists. split; [reflexivity|]. by repeat split. }
  intros p h Hn Hmax.
  destruct (slot_index_in_range p Hn Hmax) as (i & Hidx & _ & Hi).
  rewrite (get_at p h i Hidx Hi Hmax).
  destruct (lookup_lt_is_Some_2 _ _ Hi) as [[ex|] Hslot]; rewrite Hslot.
  - exists i, ex, (mkProvider (executors_ p) (to_int (executorIdx_ p + 1))), h.
    repeat split; try done.
    apply lookup_lt_is_Some_2.
    match goal with Hv : slots_valid _ _ |- _ => by eapply Hv end.
  - exists i, (length h),
      (mkProvider (<[i := Some (length h)]> (executors_ p))
                  (to_int (executorIdx_ p + 1))), (h ++ [create]).
    split; [done|]. split; [done|]. split; [done|]. simpl.
    split; [by rewrite list_lookup_insert_eq|].
    split; [by rewrite length_insert|].
    intros Hv. split.
    + intros j ex Hj. rewrite length_app; simpl.
      destruct (decide (j = i)) as [->|Hne].
      * rewrite list_lookup_insert_eq in Hj by done. injection Hj as <-. lia.
      * rewrite list_lookup_insert_ne in Hj by done.
        specialize (Hv j ex Hj). lia.
    + apply lookup_lt_is_Some_2. rewrite length_app; simpl. lia.
Qed.

Lemma get_needs_a_slot_witness :
  exists (i : nat) ex p' (h' : Heap),
    slot_index (mkProvider [None; None; None] 7) = Some (Z.of_nat i) /\
    (i < 3)%nat /\
    get (mkProvider [None; None; None] 7) [] = Some (ex, p', h') /\
    executors_ p' !! i = Some (Some ex) /\
    length (executors_ p') = 3%nat /\
    (slots_valid [None; None; None] [] ->
     slots_valid (executors_ p') h' /\ is_Some (h' !! ex)).
Proof.
  apply (proj2 get_needs_a_slot (mkProvider [None; None; None] 7) []).
  - simpl. lia.
  - vm_compute. discriminate.
Defined.

(** C9.  [get] leaves every populated slot with the handle it had, and
    allocates an executor only to fill a slot that was empty, which is the
    slot it returns; the close of the pool is what empties slots, and it
    empties all of them. *)
Theorem slots_populated_once :
  (forall p (h : Heap) ex p' (h' : Heap),
     get p h = Some (ex, p', h') ->
     (forall i x, executors_ p !! i = Some (Some x) ->
                  executors_ p' !! i = Some (Some x)) /\
     ((h' = h /\ executors_ p' = executors_ p) \/
      (exists i : nat,
         executors_ p !! i = Some None /\
         executors_ p' = <[i := Some ex]> (executors_ p) /\
         ex = length h /\ h' = h ++ [create]))) /\
  (forall drain timeoutMs now p (h : Heap) p' st,
     pool_close drain timeoutMs now p h = Some (p', st) ->
     executors_ p' = replicate (length (executors_ p)) None).
Proof.
  split.
  - intros p h ex p' h'. unfold get.
    destruct (slot_index p) as [idx|]; [|done].
    unfold slot_at. destruct (to_size_t idx <? _); [|done].
    set (i := Z.to_nat (to_size_t idx)).
    destruct (executors_ p !! i) as [[x|]|] eqn:Hslot; [| |done].
    + intros [= <- <- <-]. split; [done|]. by left.
    + intros [= <- <- <-]. simpl. split.
      * intros j x Hj. rewrite list_lookup_insert_ne; [done|].
        intros <-. by rewrite Hslot in Hj.
      * right. by exists i.
  - intros drain timeoutMs now p h p' st. unfold pool_close.
    generalize (mkPoolClose h now (new_timeout timeoutMs) []).
    intros st0.
    destruct (close_slots drain (executors_ p) st0) as [[slots' st']|] eqn:E; [|done].
    intros [= <- <-]. simpl.
    revert st0 slots' st' E.
    induction (executors_ p) as [|slot rest IH]; intros st0 slots' st'; simpl.
    { by intros [= <- <-]. }
    destruct (close_slot drain slot st0) as [st1|]; [|done].
    destruct (close_slots drain rest st1) as [[rest' st2]|] eqn:E; [|done].
    intros [= <- <-]. f_equal. by eapply IH.
Qed.

Lemma slots_populated_once_witness :
  get (mkProvider [Some 0%nat; None] 1) [create] =
    Some (1%nat, mkProvider [Some 0%nat; Some 1%nat] 2, [create; create]) /\
  executors_ (mkProvider [Some 0%nat; None] 1) !! 0%nat = Some (Some 0%nat) /\
  executors_ (mkProvider [Some 0%nat; Some 1%nat] 2) !! 0%nat = Some (Some 0%nat).
Proof.
  split; [reflexivity|]. split; [reflexivity|].
  apply (proj1 (proj1 slots_populated_once
                  (mkProvider [Some 0%nat; None] 1) [create] 1%nat
                  (mkProvider [Some 0%nat; Some 1%nat] 2) [create; create]
                  eq_refl)).
  reflexivity.
Defined.

(** ** Round robin *)

Lemma pool_after_length a N k :
  (k <= N)%nat -> length (executors_ (pool_after a N k)) = N.
Proof.
  intros Hk. unfold pool_after; simpl.
  rewrite length_app, length_fmap, length_seq, length_replicate. lia.
Qed.

Lemma pool_after_index a N k :
  (k < N)%nat -> Z.of_nat N <= INT_MAX ->
  slot_index (pool_after a N k) = Some (Z.of_nat k).
Proof.
  intros Hk Hmax. unfold slot_index. rewrite pool_after_length by lia.
  destruct (Z.eqb_spec (Z.of_nat N) 0) as [?|_]; [lia|]. simpl.
  rewrite to_size_t_small by lia. rewrite Z.mod_small by lia.
  by rewrite to_int_small by lia.
Qed.

(** The call number [k] of [get] on a new pool fills slot [k]. *)
Lemma get_fresh_step a N k (h : Heap) :
  (k < N)%nat -> Z.of_nat N <= INT_MAX -> length h = (a + k)%nat ->
  get (pool_after a N k) h = Some ((a + k)%nat, pool_after a N (S k), h ++ [create]).
Proof.
  intros Hk Hmax Hlen.
  rewrite (get_at _ h k); [|by apply pool_after_index
                           |rewrite pool_after_length; lia
                           |rewrite pool_after_length; lia].
  assert (N - k = S (N - S k))%nat as HN by lia.
  assert (pool_after a N (S k) =
          mkProvider ((Some <$> seq a k) ++ Some (a + k)%nat :: replicate (N - S k) None)
                     (Z.of_nat k + 1)) as ->.
  { unfold pool_after. rewrite seq_S, fmap_app, <- app_assoc. simpl.
    f_equal. lia. }
  unfold pool_after; cbn [executors_ executorIdx_]. rewrite HN.
  rewrite lookup_app_r by (rewrite length_fmap, length_seq; lia).
  rewrite length_fmap, length_seq, Nat.sub_diag. cbn [replicate lookup list_lookup].
  rewrite insert_app_r_alt by (rewrite length_fmap, length_seq; lia).
  rewrite length_fmap, length_seq, Nat.sub_diag. cbn [insert list_insert].
  rewrite to_int_small by lia. by rewrite Hlen.
Qed.

(** Once every slot is filled, the call number [N] returns the executor
    of slot 0 and allocates nothing. *)
Lemma get_fresh_wrap a N (h : Heap) :
  (1 <= N)%nat -> Z.of_nat N <= INT_MAX ->
  get (pool_after a N N) h =
  Some (a, mkProvider (executors_ (pool_after a N N)) (to_int (Z.of_nat N + 1)), h).
Proof.
  intros HN Hmax.
  assert (slot_index (pool_after a N N) = Some (Z.of_nat 0)) as Hidx.
  { unfold slot_index. rewrite pool_after_length by lia.
    destruct (Z.eqb_spec (Z.of_nat N) 0) as [?|_]; [lia|]. simpl.
    rewrite to_size_t_small by lia. rewrite Z.mod_same by lia. done. }
  rewrite (get_at _ h 0 Hidx); [|rewrite pool_after_length; lia
                                |rewrite pool_after_length; lia].
  unfold pool_after; simpl. destruct N as [|N]; [lia|]. done.
Qed.

Lemma gets_fresh a N j k (h : Heap) :
  (j + k <= N)%nat -> Z.of_nat N <= INT_MAX -> length h = (a + j)%nat ->
  gets k (pool_after a N j) h =
  Some (seq (a + j) k, pool_after a N (j + k), h ++ replicate k create).
Proof.
  revert j h; induction k as [|k IH]; intros j h Hjk Hmax Hlen; simpl.
  { by rewrite Nat.add_0_r, app_nil_r. }
  rewrite (get_fresh_step a N j h) by (done || lia).
  rewrite (IH (S j)); [|lia|done|rewrite length_app; simpl; lia].
  replace (a + S j)%nat with (S (a + j)) by lia.
  replace (S j + k)%nat with (j + S k)%nat by lia.
  by rewrite <- app_assoc.
Qed.

Lemma gets_app k1 k2 p (h : Heap) exs1 p1 (h1 : Heap) :
  gets k1 p h = Some (exs1, p1, h1) ->
  gets (k1 + k2) p h =
  match gets k2 p1 h1 with
  | Some (exs2, p2, h2) => Some (exs1 ++ exs2, p2, h2)
  | None => None
  end.
Proof.
  revert p h exs1; induction k1 as [|k1 IH]; intros p h exs1; simpl.
  { intros [= <- <- <-]. by destruct (gets k2 p h) as [[[??]?]|]. }
  destruct (get p h) as [[[ex p0] h0]|]; [|done].
  destruct (gets k1 p0 h0) as [[[exs p2] h2]|] eqn:E; [|done].
  intros [= <- <- <-]. rewrite (IH _ _ _ E).
  by destruct (gets k2 p2 h2) as [[[??]?]|].
Qed.

(** C7.  For a pool of [N >= 1] slots, the index of [get] is the counter
    modulo [N] and the counter goes up by one.  On a new pool the first
    [N] calls create [N] executors, call number [k] into slot [k], so the
    handles are pairwise distinct and fill [N] distinct slots, and the
    call after them returns the handle of the first call and creates
    nothing. *)
Theorem get_round_robin (N : nat) (h : Heap) :
  (1 <= N)%nat -> Z.of_nat N <= INT_MAX ->
  (forall p (h0 : Heap) ex p' (h' : Heap),
     length (executors_ p) = N -> 0 <= executorIdx_ p < INT_MAX ->
     get p h0 = Some (ex, p', h') ->
     slot_index p = Some (executorIdx_ p mod Z.of_nat N) /\
     executorIdx_ p' = executorIdx_ p + 1 /\
     executors_ p' !! Z.to_nat (executorIdx_ p mod Z.of_nat N) = Some (Some ex)) /\
  exists p0 pN (hN : Heap),
    new_provider (Z.of_nat N) = Some p0 /\
    executors_ p0 = replicate N None /\
    gets N p0 h = Some (seq (length h) N, pN, hN) /\
    executors_ pN = Some <$> seq (length h) N /\
    NoDup (seq (length h) N) /\
    hN = h ++ replicate N create /\
    gets (S N) p0 h =
      Some (seq (length h) N ++ [length h],
            mkProvider (executors_ pN) (to_int (Z.of_nat N + 1)), hN) /\
    head (seq (length h) N) = Some (length h).
Proof.
  intros HN Hmax. split.
  - intros p h0 ex p' h' Hlen Hc Hget.
    destruct (slot_index_in_range p) as (i & Hidx & Hi & Hlt); [lia|lia|].
    rewrite Hlen in *. rewrite to_size_t_small in Hi by lia.
    rewrite <- Hi, Nat2Z.id. split; [done|].
    rewrite (get_at p h0 i Hidx) in Hget by lia.
    destruct (lookup_lt_is_Some_2 (executors_ p) i ltac:(lia)) as [[x|] Hslot];
      rewrite Hslot in Hget; injection Hget as <- <- <-; simpl;
      rewrite to_int_small by lia; split; try done.
    apply list_lookup_insert_eq. lia.
  - pose proof (gets_fresh (length h) N 0 N h ltac:(lia) Hmax ltac:(lia)) as HgN.
    rewrite Nat.add_0_r in HgN. simpl in HgN.
    assert (new_provider (Z.of_nat N) = Some (pool_after (length h) N 0)) as Hnew.
    { unfold new_provider, pool_after.
      destruct (Z.ltb_spec (Z.of_nat N) 0); [lia|].
      by rewrite Nat2Z.id, Nat.sub_0_r. }
    exists (pool_after (length h) N 0), (pool_after (length h) N N),
      (h ++ replicate N create).
    split; [done|]. split; [by unfold pool_after; simpl; rewrite Nat.sub_0_r|].
    split; [done|].
    split; [by unfold pool_after; simpl; rewrite Nat.sub_diag, app_nil_r|].
    split; [apply NoDup_seq|]. split; [done|]. split.
    + replace (S N) with (N + 1)%nat by lia.
      rewrite (gets_app N 1 _ _ _ _ _ HgN). simpl.
      by rewrite (get_fresh_wrap (length h) N) by done.
    + destruct N; [lia|done].
Qed.

Lemma get_round_robin_witness :
  exists p0 pN (hN : Heap),
    new_provider 3 = Some p0 /\
    executors_ p0 = [None; None; None] /\
    gets 3 p0 [] = Some ([0; 1; 2]%nat, pN, hN) /\
    executors_ pN = [Some 0; Some 1; Some 2]%nat /\
    NoDup [0; 1; 2]%nat /\
    hN = [create; create; create] /\
    gets 4 p0 [] = Some ([0; 1; 2; 0]%nat, mkProvider (executors_ pN) 4, hN) /\
    head [0; 1; 2]%nat = Some 0%nat.
Proof.
  assert (1 <= 3)%nat as H1 by lia.
  assert (Z.of_nat 3 <= INT_MAX) as H2 by (vm_compute; discriminate).
  apply (proj2 (get_round_robin 3 [] H1 H2)).
Defined.

(** ** Worked examples *)

(** Three executors, a budget of 300 ms, the first worker needs 250 ms
    and the others a second: the timeouts handed out are 300, 50 and 0,
    and the closes take 250, 50 and 0 ms. *)
Example pool_close_300_250 :
  (fun r => pc_calls r.2) <$>
    pool_close (fun ex => if decide (ex = 0%nat) then 250 else 1000) 300 0
               (mkProvider [Some 0%nat; Some 1%nat; Some 2%nat] 3)
               [create; create; create]
  = Some [mkCall 0 300 250; mkCall 1 50 50; mkCall 2 0 0].
Proof. reflexivity. Qed.

(** Two threads race through [close(-1)] and [close(100)]: the second
    one to reach the exchange returns at once, and the trace holds one
    transition of [closed_] and one stop signal. *)
Example race_of_two_closers :
  let st := run_sched 5 [RunThread 1; RunThread 0; RunThread 1; RunThread 0; RunThread 1]
                      ([PcCas (-1); PcCas 100], create) in
  st.1 = [PcReturned; PcReturned] /\
  count_event ClosedSet (trace st.2) = 1%nat /\
  count_event IoStop (trace st.2) = 1%nat /\
  ioServiceDone_ st.2 = true.
Proof. by repeat split. Qed.

(** A restart that finds a non-blocking close in flight does not wait:
    the old worker is still leaving [run] when the new one starts. *)
Example restart_during_close :
  (fun r => threads r.1) <$> (close 5 0 create ≫= fun r => restart 7 r.1)
  = Some [Draining 5; Running].
Proof. reflexivity. Qed.

(** * Further properties *)

(** ** What holds between two operations *)























(** ** The mutex *)

Lemma mutex_run_app held l1 l2 :
  mutex_run held (l1 ++ l2) = mutex_run held l1 ≫= fun h => mutex_run h l2.
Proof.
  revert held; induction l1 as [|ev l1 IH]; intros held; simpl; [done|].
  destruct (mutex_step held ev); [apply IH|done].
Qed.

Lemma mutex_emit ev e h h' :
  mutex_run false (trace e) = Some h ->
  mutex_step h ev = Some h' ->
  mutex_run false (trace (emit ev e)) = Some h'.
Proof.
  intros H Hstep. simpl. rewrite mutex_run_app, H. simpl. by rewrite Hstep.
Qed.

(** Follow the events that an operation appends, innermost first. *)
Ltac mutex_solve :=
  cbn [trace set_done set_closed set_stopped set_threads];
  first [ eassumption
        | eapply mutex_emit; [mutex_solve | reflexivity] ].

Lemma mutex_worker_exit ec e :
  mutex_run false (trace e) = Some false ->
  mutex_run false (trace (worker_exit ec e)) = Some false.
Proof. intros H. destruct ec; unfold worker_exit; cbv zeta; mutex_solve. Qed.

Lemma mutex_run_exits n e :
  mutex_run false (trace e) = Some false ->
  mutex_run false (trace (run_exits n e)) = Some false.
Proof.
  revert e; induction n as [|n IH]; intros e H; [done|].
  simpl. by apply IH, mutex_worker_exit.
Qed.

Lemma mutex_advance dt e :
  mutex_run false (trace e) = Some false ->
  mutex_run false (trace (advance dt e)) = Some false.
Proof. intros H. unfold advance. by apply mutex_run_exits. Qed.

Lemma mutex_worker_fail msg e :
  mutex_run false (trace e) = Some false ->
  mutex_run false (trace (worker_fail msg e)) = Some false.
Proof.
  intros H. unfold worker_fail. destruct (threads e); [done|].
  by apply mutex_worker_exit.
Qed.

(** A wait is entered and left with the mutex held. *)
Lemma mutex_wait_for t e :
  mutex_run false (trace e) = Some true ->
  mutex_run false (trace (cond_wait_for t e).1) = Some true.
Proof.
  intros H. unfold cond_wait_for. destruct (ioServiceDone_ e); [done|].
  cbn [fst]. eapply mutex_emit; [apply mutex_advance; mutex_solve|reflexivity].
Qed.

Lemma mutex_wait e e' dt :
  mutex_run false (trace e) = Some true ->
  cond_wait e = Some (e', dt) ->
  mutex_run false (trace e') = Some true.
Proof.
  intros H. unfold cond_wait. destruct (ioServiceDone_ e); [by intros [= <- <-]|].
  destruct (next_exit (threads e)); [|done]. intros [= <- <-].
  eapply mutex_emit; [apply mutex_advance; mutex_solve|reflexivity].
Qed.

Lemma mutex_close d t e e' dt :
  mutex_run false (trace e) = Some false ->
  close d t e = Some (e', dt) ->
  mutex_run false (trace e') = Some false.
Proof.
  intros H. unfold close, compare_exchange_closed.
  destruct (closed_ e); simpl; [by intros [= <- <-]|].
  destruct (t =? 0).
  { intros [= <- <-]. unfold io_stop. mutex_solve. }
  set (e2 := io_stop d (emit Lock (emit ClosedSet (set_closed true e)))).
  assert (mutex_run false (trace e2) = Some true) as H2.
  { subst e2. unfold io_stop. mutex_solve. }
  destruct (0 <? t).
  - pose proof (mutex_wait_for t e2 H2) as H3.
    destruct (cond_wait_for t e2) as [e3 dt3]. intros [= <- <-]. mutex_solve.
  - destruct (cond_wait e2) as [[e3 dt3]|] eqn:E; [|done]. intros [= <- <-].
    pose proof (mutex_wait e2 e3 dt3 H2 E) as H3. mutex_solve.
Qed.

Lemma mutex_start e :
  mutex_run false (trace e) = Some false ->
  mutex_run false (trace (start e)) = Some false.
Proof. intros H. unfold start. mutex_solve. Qed.

Lemma mutex_restart d e e' dt :
  mutex_run false (trace e) = Some false ->
  restart d e = Some (e', dt) ->
  mutex_run false (trace e') = Some false.
Proof.
  intros H. unfold restart.
  destruct (close d (-1) e) as [[e1 dt1]|] eqn:E; [|done]. intros [= <- <-].
  pose proof (mutex_close d (-1) e e1 dt1 H E) as H1.
  apply mutex_start. unfold io_restart. mutex_solve.
Qed.

Lemma mutex_try_new kind prefix sys d e r e' dt :
  mutex_run false (trace e) = Some false ->
  try_new kind prefix sys d e = Some (r, e', dt) ->
  mutex_run false (trace e') = Some false.
Proof.
  intros H. unfold try_new. destruct sys as [what|].
  - destruct (restart d e) as [[e1 dt1]|] eqn:E; [|done]. intros [= <- <- <-].
    by eapply mutex_restart.
  - intros [= <- <- <-]. mutex_solve.
Qed.

Lemma mutex_run_op o e e' :
  mutex_run false (trace e) = Some false ->
  run_op o e = Some e' ->
  mutex_run false (trace e') = Some false.
Proof.
  intros H. destruct o as [[d t|d| |dt|msg]|d|sys d|sys d|sys d|sys socket ctx]; simpl.
  - destruct (close d t e) as [[e1 dt]|] eqn:E; [|done]. intros [= <-].
    by eapply mutex_close.
  - unfold destroy. destruct (close d 0 e) as [[e1 dt]|] eqn:E; [|done].
    intros [= <-]. by eapply mutex_close.
  - intros [= <-]. unfold postWork. mutex_solve.
  - intros [= <-]. by apply mutex_advance.
  - intros [= <-]. by apply mutex_worker_fail.
  - destruct (restart d e) as [[e1 dt]|] eqn:E; [|done]. intros [= <-].
    by eapply mutex_restart.
  - unfold createSocket. destruct (try_new _ _ sys d e) as [[[r e1] dt]|] eqn:E; [|done].
    intros [= <-]. by eapply mutex_try_new.
  - unfold createTcpResolver.
    destruct (try_new _ _ sys d e) as [[[r e1] dt]|] eqn:E; [|done].
    intros [= <-]. by eapply mutex_try_new.
  - unfold createDeadlineTimer.
    destruct (try_new _ _ sys d e) as [[[r e1] dt]|] eqn:E; [|done].
    intros [= <-]. by eapply mutex_try_new.
  - intros [= <-]. by destruct sys.
Qed.

(** X3.  In every life of an executor made by [create] the mutex is used
    correctly: it is never taken while held nor released while free,
    [ioServiceDone_] is written, by a worker or by [restart], only while
    it is held, and every operation returns with the mutex released. *)
Theorem mutex_discipline (ops : list Op) (e' : ExecutorService) :
  run_ops ops create = Some e' ->
  mutex_run false (trace e') = Some false.
Proof.
  assert (mutex_run false (trace create) = Some false) as H by done.
  revert H. generalize create. induction ops as [|o ops IH]; intros e H; simpl.
  { by intros [= <-]. }
  destruct (run_op o e) as [e1|] eqn:E; [|done]. intros Hrun.
  apply (IH e1); [|done]. by eapply mutex_run_op.
Qed.

Lemma mutex_discipline_witness :
  exists e',
    run_ops [OpCreateDeadlineTimer (Some "Too many open files") 3;
             OpAct (DoClose 5 100); OpAct (RunFails "Operation canceled")]
            create = Some e' /\
    mutex_run false (trace e') = Some false.
Proof.
  eexists. split; [vm_compute; reflexivity|].
  apply (mutex_discipline
           [OpCreateDeadlineTimer (Some "Too many open files") 3;
            OpAct (DoClose 5 100); OpAct (RunFails "Operation canceled")]).
  vm_compute. reflexivity.
Defined.

(** ** Factories and closes on executors that are closed or finished *)

(** X4.  A factory call that fails on an executor that has been closed
    does not wait, and it reopens the executor: the restart it runs finds
    [closed_] true, skips the close, clears both flags, resets the
    io_service and starts a new worker, next to any old worker that is
    still leaving [run].  The caller gets the runtime_error. *)
Theorem failed_factory_reopens (d : Z) (e : ExecutorService) (what : string) :
  closed_ e = true ->
  exists e',
    restart d e = Some (e', 0) /\
    createSocket (Some what) d e =
      Some (Thrown (runtime_error ("Failed to create socket: " +:+ what)), e', 0) /\
    createTcpResolver (Some what) d e =
      Some (Thrown (runtime_error ("Failed to create resolver: " +:+ what)), e', 0) /\
    createDeadlineTimer (Some what) d e =
      Some (Thrown (runtime_error ("Failed to create deadline_timer: " +:+ what)), e', 0) /\
    closed_ e' = false /\
    ioServiceDone_ e' = false /\
    io_stopped e' = false /\
    threads e' = threads e ++ [Running] /\
    count_event IoStop (trace e') = count_event IoStop (trace e).
Proof.
  intros Hc.
  unfold createSocket, createTcpResolver, createDeadlineTimer, try_new, restart.
  rewrite (close_closed d (-1) e Hc).
  eexists. split; [reflexivity|]. do 3 (split; [reflexivity|]).
  repeat split. count_events.
Qed.

Lemma failed_factory_reopens_witness :
  closed_ (io_stop 5 (emit ClosedSet (set_closed true create))) = true /\
  exists e',
    restart 7 (io_stop 5 (emit ClosedSet (set_closed true create))) = Some (e', 0) /\
    closed_ e' = false /\
    threads e' = [Draining 5; Running].
Proof.
  split; [reflexivity|].
  destruct (failed_factory_reopens 7 (io_stop 5 (emit ClosedSet (set_closed true create)))
              "Too many open files" eq_refl)
    as (e' & Hr & _ & _ & _ & Hc & _ & _ & Ht & _).
  exists e'. by repeat split.
Defined.

(** X5.  Once the dispatch loop has finished ([ioServiceDone_] is true)
    no close blocks, whatever its timeout: the first closer still sets
    [closed_] and signals stop, the blocking paths take and release the
    mutex, and none of them enters a wait.  A restart then takes no time
    either and leaves a new worker dispatching. *)
Theorem finished_loop_never_blocks (d timeoutMs : Z) (e : ExecutorService) :
  ioServiceDone_ e = true ->
  (exists e',
     close d timeoutMs e = Some (e', 0) /\
     trace e' = trace e ++
       (if closed_ e then []
        else if timeoutMs =? 0 then [ClosedSet; IoStop]
             else [ClosedSet; Lock; IoStop; Unlock]) /\
     closed_ e' = true /\
     ioServiceDone_ e' = true) /\
  (exists e2,
     restart d e = Some (e2, 0) /\
     closed_ e2 = false /\
     ioServiceDone_ e2 = false /\
     io_stopped e2 = false /\
     last (threads e2) = Some Running).
Proof.
  intros Hd. split.
  - unfold close, compare_exchange_closed, cond_wait_for, cond_wait.
    destruct (closed_ e) eqn:Hc; simpl.
    { exists e. rewrite app_nil_r. by repeat split. }
    destruct (timeoutMs =? 0); simpl.
    { eexists. split; [reflexivity|]. simpl. rewrite <- !app_assoc. by repeat split. }
    rewrite Hd. destruct (0 <? timeoutMs);
      (eexists; split; [reflexivity|]; simpl; rewrite <- !app_assoc; by repeat split).
  - unfold restart, close, compare_exchange_closed, cond_wait.
    destruct (closed_ e) eqn:Hc; simpl.
    { eexists. split; [reflexivity|]. simpl. repeat split. by rewrite last_snoc. }
    rewrite Hd. eexists. split; [reflexivity|]. simpl. repeat split.
    by rewrite last_snoc.
Qed.

Lemma finished_loop_never_blocks_witness :
  ioServiceDone_ (worker_fail "Operation canceled" create) = true /\
  exists e',
    close 5 (-1) (worker_fail "Operation canceled" create) = Some (e', 0) /\
    closed_ e' = true /\ ioServiceDone_ e' = true.
Proof.
  split; [reflexivity|].
  destruct (proj1 (finished_loop_never_blocks 5 (-1)
                     (worker_fail "Operation canceled" create) eq_refl))
    as (e' & H1 & _ & H2 & H3).
  exists e'. by repeat split.
Defined.

(** ** Round robin over any number of calls *)

(** [get] on a pool whose slots are all filled: the executor of the slot
    at the counter modulo the number of slots, and nothing is created. *)
Lemma get_full_step a N c (h : Heap) :
  (1 <= N)%nat -> Z.of_nat N <= INT_MAX -> Z.of_nat c < INT_MAX ->
  get (mkProvider (Some <$> seq a N) (Z.of_nat c)) h =
  Some ((a + c mod N)%nat, mkProvider (Some <$> seq a N) (Z.of_nat (S c)), h).
Proof.
  intros HN Hmax Hc.
  assert (c mod N < N)%nat as Hlt by (apply Nat.mod_upper_bound; lia).
  assert (length (Some <$> seq a N) = N) as Hlen
    by by rewrite length_fmap, length_seq.
  assert (slot_index (mkProvider (Some <$> seq a N) (Z.of_nat c)) =
          Some (Z.of_nat (c mod N))) as Hidx.
  { unfold slot_index; simpl. rewrite Hlen.
    destruct (Z.eqb_spec (Z.of_nat N) 0) as [?|_]; [lia|].
    rewrite to_size_t_small by lia. rewrite <- Nat2Z.inj_mod.
    by rewrite to_int_small by lia. }
  rewrite (get_at _ h (c mod N) Hidx); simpl; rewrite ?Hlen; [|done|done].
  rewrite list_lookup_fmap, lookup_seq_lt by done. simpl.
  rewrite to_int_small by lia.
  by replace (Z.of_nat c + 1) with (Z.of_nat (S c)) by lia.
Qed.

Lemma gets_full a N c r (h : Heap) :
  (1 <= N)%nat -> Z.of_nat N <= INT_MAX -> Z.of_nat (c + r) <= INT_MAX ->
  gets r (mkProvider (Some <$> seq a N) (Z.of_nat c)) h =
  Some ((fun i => a + (c + i) mod N)%nat <$> seq 0 r,
        mkProvider (Some <$> seq a N) (Z.of_nat (c + r)), h).
Proof.
  intros HN Hmax. revert c; induction r as [|r IH]; intros c Hc.
  { simpl. by rewrite Nat.add_0_r. }
  cbn [gets]. rewrite get_full_step by lia. rewrite IH by lia.
  change (seq 0 (S r)) with (0%nat :: seq 1 r). rewrite fmap_cons.
  rewrite Nat.add_0_r. replace (S c + r)%nat with (c + S r)%nat by lia.
  assert ((fun i => a + (c + i) mod N)%nat <$> seq 1 r =
          (fun i => a + (S c + i) mod N)%nat <$> seq 0 r) as ->; [|done].
  rewrite <- fmap_S_seq, <- list_fmap_compose.
  apply list_fmap_ext. intros _ i _. simpl. do 2 f_equal. lia.
Qed.

Lemma seq_as_mod a N k :
  (k <= N)%nat -> seq a k = (fun i => a + i mod N)%nat <$> seq 0 k.
Proof.
  intros Hk. transitivity (Nat.add a <$> seq 0 k).
  { by rewrite fmap_add_seq, Nat.add_0_r. }
  apply list_fmap_ext. intros j i Hi. apply lookup_seq in Hi as [-> ?].
  simpl. by rewrite Nat.mod_small by lia.
Qed.

(** X6.  However often [get] is called on a new pool of [N >= 1] slots
    (as long as the int counter does not overflow), call number [i]
    returns the executor of slot [i mod N], and the pool creates one
    executor for each of the first [N] calls and none afterwards. *)
Theorem get_cycles (N k : nat) (h : Heap) :
  (1 <= N)%nat -> Z.of_nat N <= INT_MAX -> Z.of_nat k <= INT_MAX ->
  exists p0 pk,
    new_provider (Z.of_nat N) = Some p0 /\
    gets k p0 h =
      Some ((fun i => length h + i mod N)%nat <$> seq 0 k, pk,
            h ++ replicate (k `min` N) create) /\
    executorIdx_ pk = Z.of_nat k.
Proof.
  intros HN Hmax Hk.
  assert (new_provider (Z.of_nat N) = Some (pool_after (length h) N 0)) as Hnew.
  { unfold new_provider, pool_after.
    destruct (Z.ltb_spec (Z.of_nat N) 0); [lia|].
    by rewrite Nat2Z.id, Nat.sub_0_r. }
  exists (pool_after (length h) N 0).
  destruct (decide (k <= N)%nat) as [Hle|Hgt].
  - exists (pool_after (length h) N k). split; [done|]. split; [|done].
    rewrite (gets_fresh (length h) N 0 k h) by (done || lia).
    rewrite Nat.add_0_r, Nat.min_l by done. simpl.
    by rewrite (seq_as_mod (length h) N k Hle).
  - assert (exists r, k = (N + r)%nat) as [r ->] by (exists (k - N)%nat; lia).
    exists (mkProvider (Some <$> seq (length h) N) (Z.of_nat (N + r))).
    split; [done|]. split; [|done].
    pose proof (gets_fresh (length h) N 0 N h ltac:(lia) Hmax ltac:(lia)) as HgN.
    rewrite (gets_app N r _ _ _ _ _ HgN).
    assert (pool_after (length h) N (0 + N) =
            mkProvider (Some <$> seq (length h) N) (Z.of_nat N)) as ->.
    { unfold pool_after. simpl. by rewrite Nat.sub_diag, app_nil_r. }
    rewrite (gets_full (length h) N N r) by (done || lia).
    rewrite Nat.add_0_r, Nat.min_r by lia.
    rewrite seq_app, fmap_app. simpl.
    rewrite <- (seq_as_mod (length h) N N) by lia.
    assert (seq N r = Nat.add N <$> seq 0 r) as ->
      by by rewrite fmap_add_seq, Nat.add_0_r.
    by rewrite <- list_fmap_compose.
Qed.

Lemma get_cycles_witness :
  exists p0 pk,
    new_provider 3 = Some p0 /\
    gets 8 p0 [] =
      Some ([0; 1; 2; 0; 1; 2; 0; 1]%nat, pk, [create; create; create]) /\
    executorIdx_ pk = 8.
Proof.
  assert (1 <= 3)%nat as H1 by lia.
  assert (Z.of_nat 3 <= INT_MAX) as H2 by (vm_compute; discriminate).
  assert (Z.of_nat 8 <= INT_MAX) as H3 by (vm_compute; discriminate).
  apply (get_cycles 3 8 [] H1 H2 H3).
Defined.

(** ** What the close of the pool does to the executors *)

Lemma close_closes d t e e' dt :
  close d t e = Some (e', dt) ->
  closed_ e' = true /\ (stopped_if_closed e -> io_stopped e' = true).
Proof.
  unfold close, compare_exchange_closed, stopped_if_closed.
  destruct (closed_ e) eqn:Hc; simpl.
  { intros [= <- <-]. split; [done|]. intros H. by apply H. }
  destruct (t =? 0); [by intros [= <- <-]|].
  set (e2 := io_stop d (emit Lock (emit ClosedSet (set_closed true e)))).
  destruct (0 <? t).
  - unfold cond_wait_for. destruct (ioServiceDone_ e2); intros [= <- <-]; [done|].
    simpl. by rewrite advance_closed, advance_stopped.
  - unfold cond_wait. destruct (ioServiceDone_ e2); [by intros [= <- <-]|].
    destruct (next_exit (threads e2)); [|done]. intros [= <- <-].
    simpl. by rewrite advance_closed, advance_stopped.
Qed.

Lemma advance_stopped_if_closed dt e :
  stopped_if_closed e -> stopped_if_closed (advance dt e).
Proof. unfold stopped_if_closed. by rewrite advance_closed, advance_stopped. Qed.

(** One [executor->close] of the pool: the executor at [ex] ends closed,
    every other one has only seen time pass. *)
Lemma close_at_effect d t ex (h h' : Heap) dt :
  close_at d t ex h = Some (h', dt) ->
  length h' = length h /\
  (exists e', h' !! ex = Some e' /\ closed_ e' = true) /\
  (forall j e, h !! j = Some e ->
     exists e', h' !! j = Some e' /\
       (closed_ e = true -> closed_ e' = true) /\
       (j <> ex -> closed_ e' = closed_ e)) /\
  (Forall stopped_if_closed h -> Forall stopped_if_closed h').
Proof.
  unfold close_at. destruct (h !! ex) as [e0|] eqn:Hex; [|done].
  destruct (close d t e0) as [[e0' dt0]|] eqn:Hcl; [|done]. intros [= <- <-].
  destruct (close_closes d t e0 e0' dt0 Hcl) as [Hc Hs].
  assert (ex < length (advance dt0 <$> h))%nat as Hlt.
  { rewrite length_fmap. by eapply lookup_lt_Some. }
  split; [by rewrite length_insert, length_fmap|]. split; [|split].
  - exists e0'. split; [|done]. by apply list_lookup_insert_eq.
  - intros j e Hj. destruct (decide (j = ex)) as [->|Hne].
    + exists e0'. rewrite list_lookup_insert_eq by done. by repeat split.
    + exists (advance dt0 e). rewrite list_lookup_insert_ne by done.
      rewrite list_lookup_fmap, Hj. simpl. by rewrite advance_closed.
  - intros Hall. apply Forall_insert.
    + apply Forall_fmap. eapply Forall_impl; [exact Hall|].
      intros e. apply advance_stopped_if_closed.
    + intros _. apply Hs. by eapply (proj1 (Forall_lookup _ _) Hall).
Qed.

Lemma close_slots_effect drain slots st slots' st' :
  close_slots drain slots st = Some (slots', st') ->
  slots' = replicate (length slots) None /\
  length (pc_heap st') = length (pc_heap st) /\
  (forall i ex, slots !! i = Some (Some ex) ->
     exists e', pc_heap st' !! ex = Some e' /\ closed_ e' = true) /\
  (forall j e, pc_heap st !! j = Some e ->
     exists e', pc_heap st' !! j = Some e' /\
       (closed_ e = true -> closed_ e' = true) /\
       ((forall i, slots !! i <> Some (Some j)) -> closed_ e' = closed_ e)) /\
  (Forall stopped_if_closed (pc_heap st) -> Forall stopped_if_closed (pc_heap st')).
Proof.
  revert st slots' st'; induction slots as [|slot rest IH]; intros st slots' st'; simpl.
  { intros [= <- <-]. repeat split; try done. intros j e Hj. by exists e. }
  destruct (close_slot drain slot st) as [st1|] eqn:Hslot; [|done].
  destruct (close_slots drain rest st1) as [[rest' st2]|] eqn:Hrest; [|done].
  intros [= <- <-].
  destruct (IH st1 rest' st2 Hrest) as (-> & Hlen & Hpool & Hall & Hstop).
  split; [done|].
  assert (length (pc_heap st1) = length (pc_heap st) /\
          (forall ex, slot = Some ex ->
             exists e', pc_heap st1 !! ex = Some e' /\ closed_ e' = true) /\
          (forall j e, pc_heap st !! j = Some e ->
             exists e', pc_heap st1 !! j = Some e' /\
               (closed_ e = true -> closed_ e' = true) /\
               (slot <> Some j -> closed_ e' = closed_ e)) /\
          (Forall stopped_if_closed (pc_heap st) ->
           Forall stopped_if_closed (pc_heap st1))) as (Hlen1 & Hex1 & Hall1 & Hstop1).
  { unfold close_slot in Hslot. destruct slot as [ex|].
    - destruct (close_at _ _ ex (pc_heap st)) as [[h1 dt]|] eqn:Hat; [|done].
      injection Hslot as <-. simpl.
      destruct (close_at_effect _ _ _ _ _ _ Hat) as (H1 & H2 & H3 & H4).
      split; [done|]. split; [by intros ? [= <-]|]. split; [|done].
      intros j e Hj. destruct (H3 j e Hj) as (e' & ? & ? & Hne).
      exists e'. repeat split; try done. intros Hs. apply Hne. congruence.
    - injection Hslot as <-. simpl. repeat split; try done.
      intros j e Hj. by exists e. }
  split; [congruence|]. split; [|split].
  - intros [|i] ex Hi; simpl in Hi.
    + injection Hi as ->. destruct (Hex1 ex eq_refl) as (e1 & He1 & Hc1).
      destruct (Hall ex e1 He1) as (e' & ? & Hc & _). exists e'. split; [done|].
      by apply Hc.
    + by eapply Hpool.
  - intros j e Hj. destruct (Hall1 j e Hj) as (e1 & He1 & Hc1 & Hn1).
    destruct (Hall j e1 He1) as (e' & He' & Hc' & Hn'). exists e'.
    split; [done|]. split; [by intros ?; apply Hc', Hc1|].
    intros Hno. rewrite Hn', Hn1; [done| |].
    + intros Heq. apply (Hno 0%nat). simpl. by rewrite Heq.
    + intros i Hi. by apply (Hno (S i)).
  - intros ?. by apply Hstop, Hstop1.
Qed.

(** X7.  For a budget that is not negative the close of the pool returns
    and, finished or timed out, leaves every executor that was in a slot
    closed and told to stop; the executors that were in no slot are not
    closed by it; no executor is reopened and none is lost. *)
Theorem pool_close_closes_all drain timeoutMs now
        (p : ExecutorServiceProvider) (h : Heap) :
  0 <= timeoutMs ->
  (forall ex, 0 <= drain ex) ->
  slots_valid (executors_ p) h ->
  Forall wf_executor h ->
  Forall stopped_if_closed h ->
  exists p' st,
    pool_close drain timeoutMs now p h = Some (p', st) /\
    length (pc_heap st) = length h /\
    (forall i ex, executors_ p !! i = Some (Some ex) ->
       exists e', pc_heap st !! ex = Some e' /\
         closed_ e' = true /\ io_stopped e' = true) /\
    (forall j e, h !! j = Some e ->
       exists e', pc_heap st !! j = Some e' /\
         (closed_ e = true -> closed_ e' = true) /\
         ((forall i, executors_ p !! i <> Some (Some j)) -> closed_ e' = closed_ e)).
Proof.
  intros Ht Hdrain Hv Hwf Hstop. unfold pool_close.
  destruct (close_slots_spec drain (executors_ p)
              (mkPoolClose h now (new_timeout timeoutMs) []))
    as (st & new & Hrun & _); try done.
  rewrite Hrun. eexists _, st. split; [reflexivity|].
  destruct (close_slots_effect _ _ _ _ _ Hrun) as (_ & Hlen & Hpool & Hall & Hs).
  simpl in *. split; [done|]. split; [|done].
  intros i ex Hi. destruct (Hpool i ex Hi) as (e' & He' & Hc).
  exists e'. split; [done|]. split; [done|].
  by apply (proj1 (Forall_lookup _ _) (Hs Hstop) ex e' He').
Qed.

Lemma pool_close_closes_all_witness :
  exists p' st,
    pool_close (fun _ => 250) 100 0 (mkProvider [Some 1%nat; None] 1)
               [create; create] = Some (p', st) /\
    length (pc_heap st) = 2%nat /\
    (forall i ex, [Some 1%nat; None] !! i = Some (Some ex) ->
       exists e', pc_heap st !! ex = Some e' /\
         closed_ e' = true /\ io_stopped e' = true) /\
    (forall j e, [create; create] !! j = Some e ->
       exists e', pc_heap st !! j = Some e' /\
         (closed_ e = true -> closed_ e' = true) /\
         ((forall i, [Some 1%nat; None] !! i <> Some (Some j)) ->
          closed_ e' = closed_ e)).
Proof.
  apply (pool_close_closes_all (fun _ => 250) 100 0
           (mkProvider [Some 1%nat; None] 1) [create; create]).
  - lia.
  - intros _. lia.
  - intros [|[|i]] ex; simpl; intros [= <-]. lia.
  - repeat constructor.
  - repeat constructor; discriminate.
Defined.

(** ** The pool after its close *)

Lemma pool_close_result drain timeoutMs now p (h : Heap) p' st :
  pool_close drain timeoutMs now p h = Some (p', st) ->
  p' = mkProvider (replicate (length (executors_ p)) None) (executorIdx_ p).
Proof.
  unfold pool_close.
  destruct (close_slots drain (executors_ p) _) as [[slots' st']|] eqn:E; [|done].
  intros [= <- <-]. by destruct (close_slots_effect _ _ _ _ _ E) as (-> & _).
Qed.

(** X8.  After a close of the pool [get] does not hand out an executor
    that the close has closed: the counter is where it was, the slot it
    selects is empty like all the others, and [get] creates and starts a
    new executor there, at an address that no executor had before. *)
Theorem get_after_pool_close drain timeoutMs now p (h : Heap) p' st :
  pool_close drain timeoutMs now p h = Some (p', st) ->
  (1 <= length (executors_ p))%nat ->
  Z.of_nat (length (executors_ p)) <= INT_MAX ->
  exists (i : nat) p'',
    slot_index p = Some (Z.of_nat i) /\
    (i < length (executors_ p))%nat /\
    get p' (pc_heap st) = Some (length (pc_heap st), p'', pc_heap st ++ [create]) /\
    executors_ p'' =
      <[i := Some (length (pc_heap st))]> (replicate (length (executors_ p)) None) /\
    executorIdx_ p'' = to_int (executorIdx_ p + 1) /\
    pc_heap st !! length (pc_heap st) = None /\
    (pc_heap st ++ [create]) !! length (pc_heap st) = Some create.
Proof.
  intros Hclose Hn Hmax. rewrite (pool_close_result _ _ _ _ _ _ _ Hclose).
  destruct (slot_index_in_range p Hn Hmax) as (i & Hidx & _ & Hi).
  set (n := length (executors_ p)) in *.
  assert (slot_index (mkProvider (replicate n None) (executorIdx_ p)) =
          Some (Z.of_nat i)) as Hidx'.
  { unfold slot_index in *. simpl. by rewrite length_replicate. }
  exists i. eexists. split; [done|]. split; [done|].
  rewrite (get_at _ (pc_heap st) i Hidx'); simpl; rewrite ?length_replicate; [|done|done].
  rewrite lookup_replicate_2 by done.
  split; [reflexivity|]. simpl. split; [done|]. split; [done|].
  split; [by apply lookup_ge_None_2|].
  by rewrite lookup_app_r, Nat.sub_diag.
Qed.

Lemma get_after_pool_close_witness :
  exists p' st (i : nat) p'',
    pool_close (fun _ => 250) 100 0 (mkProvider [Some 0%nat; Some 1%nat] 3)
               [create; create] = Some (p', st) /\
    slot_index (mkProvider [Some 0%nat; Some 1%nat] 3) = Some (Z.of_nat i) /\
    get p' (pc_heap st) = Some (2%nat, p'', pc_heap st ++ [create]) /\
    executors_ p'' = <[i := Some 2%nat]> [None; None].
Proof.
  eexists _, _.
  assert (pool_close (fun _ => 250) 100 0 (mkProvider [Some 0%nat; Some 1%nat] 3)
                     [create; create] = Some _) as Hclose by (vm_compute; reflexivity).
  destruct (get_after_pool_close _ _ _ _ _ _ _ Hclose)
    as (i & p'' & Hidx & _ & Hget & Hslots & _).
  { simpl. lia. }
  { vm_compute. discriminate. }
  exists i, p''. split; [exact Hclose|]. split; [exact Hidx|].
  split; [exact Hget|exact Hslots].
Defined.

Lemma close_slots_empty drain n st :
  exists st',
    close_slots drain (replicate n None) st = Some (replicate n None, st') /\
    pc_heap st' = pc_heap st /\ pc_clock st' = pc_clock st /\
    pc_calls st' = pc_calls st.
Proof.
  revert st; induction n as [|n IH]; intros st; simpl; [by exists st|].
  destruct (IH (mkPoolClose (pc_heap st) (pc_clock st)
                  (tok (pc_clock st) (tik (pc_clock st) (pc_timer st)))
                  (pc_calls st))) as (st' & -> & ? & ? & ?).
  by exists st'.
Qed.

(** X9.  Closing the pool a second time, or closing a pool from which no
    executor was ever taken, does nothing, whatever the timeout: no
    executor is closed, no time passes, and the pool is as it was. *)
Theorem pool_close_again drain timeoutMs now p (h : Heap) :
  Forall (fun slot => slot = None) (executors_ p) ->
  exists st,
    pool_close drain timeoutMs now p h = Some (p, st) /\
    pc_heap st = h /\ pc_clock st = now /\ pc_calls st = [].
Proof.
  intros Hnone. destruct p as [slots idx]. simpl in Hnone.
  assert (slots = replicate (length slots) None) as Hrep.
  { induction Hnone as [|slot slots -> _ IH]; [done|]. simpl. by rewrite <- IH. }
  unfold pool_close. simpl. rewrite Hrep.
  destruct (close_slots_empty drain (length slots)
              (mkPoolClose h now (new_timeout timeoutMs) []))
    as (st & -> & ? & ? & ?).
  by exists st.
Qed.

Lemma pool_close_again_witness :
  Forall (fun slot : option nat => slot = None) [None; None] /\
  exists st,
    pool_close (fun _ => 250) (-1) 100 (mkProvider [None; None] 3) [create] =
      Some (mkProvider [None; None] 3, st) /\
    pc_heap st = [create] /\ pc_clock st = 100 /\ pc_calls st = [].
Proof.
  split; [repeat constructor|].
  apply (pool_close_again (fun _ => 250) (-1) 100 (mkProvider [None; None] 3) [create]).
  repeat constructor.
Defined.

(** ** Stop signals and threads over a whole life *)

Lemma close_counts d t e e' dt :
  close d t e = Some (e', dt) ->
  closed_ e' = true /\
  count_event ClosedSet (trace e') =
    (count_event ClosedSet (trace e) + if closed_ e then 0 else 1)%nat /\
  count_event IoStop (trace e') =
    (count_event IoStop (trace e) + if closed_ e then 0 else 1)%nat /\
  count_event ClosedClear (trace e') = count_event ClosedClear (trace e) /\
  count_event IoRestart (trace e') = count_event IoRestart (trace e) /\
  count_event ThreadStart (trace e') = count_event ThreadStart (trace e).
Proof.
  intros Hcl.
  rewrite (close_count_other ClosedClear d t e e' dt eq_refl ltac:(done) ltac:(done) Hcl).
  rewrite (close_count_other IoRestart d t e e' dt eq_refl ltac:(done) ltac:(done) Hcl).
  rewrite (close_count_other ThreadStart d t e e' dt eq_refl ltac:(done) ltac:(done) Hcl).
  destruct (closed_ e) eqn:Hc.
  - rewrite (close_closed d t e Hc) in Hcl. injection Hcl as <- <-.
    rewrite !Nat.add_0_r. by repeat split.
  - destruct (close_open_count ClosedSet d t e e' dt (or_introl eq_refl) Hc Hcl) as [? ->].
    destruct (close_open_count IoStop d t e e' dt (or_intror eq_refl) Hc Hcl) as [_ ->].
    repeat split; try done; lia.
Qed.

Lemma counts_close d t e e' dt :
  life_counts e -> close d t e = Some (e', dt) -> life_counts e'.
Proof.
  intros [H1 H2 H3 H4] Hcl.
  destruct (close_counts d t e e' dt Hcl) as (Hc & E1 & E2 & E3 & E4 & E5).
  split; rewrite ?E1, ?E2, ?E3, ?E4, ?E5, ?Hc; try done; try lia.
  destruct (closed_ e); lia.
Qed.

Lemma counts_restart d e e' dt :
  life_counts e -> restart d e = Some (e', dt) -> life_counts e'.
Proof.
  intros Hcnt. unfold restart.
  destruct (close d (-1) e) as [[e1 dt1]|] eqn:Hcl; [|done]. intros [= <- <-].
  destruct (counts_close d (-1) e e1 dt1 Hcnt Hcl) as [H1 H2 H3 H4].
  destruct (close_counts d (-1) e e1 dt1 Hcl) as (Hc & _).
  rewrite Hc in H4.
  set (tail := [ClosedClear; Lock; DoneClear; Unlock; IoRestart; ThreadStart;
                LogDebug "Run io_service in a single thread"]).
  set (e' := start _).
  assert (trace e' = trace e1 ++ tail) as Htr.
  { subst e' tail. simpl. by rewrite <- !app_assoc. }
  assert (closed_ e' = false) as Hc' by done.
  assert (count_event ThreadStart tail = 1%nat) as T1 by reflexivity.
  assert (count_event IoRestart tail = 1%nat) as T2 by reflexivity.
  assert (count_event ClosedClear tail = 1%nat) as T3 by reflexivity.
  assert (count_event IoStop tail = 0%nat) as T4 by reflexivity.
  assert (count_event ClosedSet tail = 0%nat) as T5 by reflexivity.
  clearbody e' tail.
  split; rewrite ?Hc', Htr, !count_event_app, ?T1, ?T2, ?T3, ?T4, ?T5; lia.
Qed.

Lemma counts_same_trace_ev ev e :
  ev <> ThreadStart -> ev <> IoRestart -> ev <> ClosedClear ->
  ev <> IoStop -> ev <> ClosedSet ->
  life_counts e -> life_counts (emit ev e).
Proof.
  intros ? ? ? ? ? [H1 H2 H3 H4].
  split; simpl; rewrite ?count_event_snoc;
    repeat match goal with
           | |- context [decide (?x = ?y)] => destruct (decide (x = y))
           end; try congruence; lia.
Qed.

Lemma counts_advance dt e : life_counts e -> life_counts (advance dt e).
Proof.
  intros [H1 H2 H3 H4].
  split; rewrite ?advance_closed, !advance_count by done; done.
Qed.

Lemma counts_worker_fail msg e : life_counts e -> life_counts (worker_fail msg e).
Proof.
  intros [H1 H2 H3 H4].
  destruct (worker_fail_count ThreadStart msg e eq_refl) as [E1 Hc].
  destruct (worker_fail_count IoRestart msg e eq_refl) as [E2 _].
  destruct (worker_fail_count ClosedClear msg e eq_refl) as [E3 _].
  destruct (worker_fail_count IoStop msg e eq_refl) as [E4 _].
  destruct (worker_fail_count ClosedSet msg e eq_refl) as [E5 _].
  split; rewrite ?E1, ?E2, ?E3, ?E4, ?E5, ?Hc; done.
Qed.

Lemma counts_try_new kind prefix sys d e r e' dt :
  life_counts e -> try_new kind prefix sys d e = Some (r, e', dt) -> life_counts e'.
Proof.
  intros Hcnt. unfold try_new. destruct sys as [what|].
  - destruct (restart d e) as [[e1 dt1]|] eqn:E; [|done]. intros [= <- <- <-].
    by eapply counts_restart.
  - intros [= <- <- <-]. by apply counts_same_trace_ev.
Qed.

Lemma counts_run_op o e e' :
  life_counts e -> run_op o e = Some e' -> life_counts e'.
Proof.
  intros Hcnt. destruct o as [[d t|d| |dt|msg]|d|sys d|sys d|sys d|sys socket ctx]; simpl.
  - destruct (close d t e) as [[e1 dt]|] eqn:E; [|done]. intros [= <-].
    by eapply counts_close.
  - unfold destroy. destruct (close d 0 e) as [[e1 dt]|] eqn:E; [|done].
    intros [= <-]. by eapply counts_close.
  - intros [= <-]. by apply counts_same_trace_ev.
  - intros [= <-]. by apply counts_advance.
  - intros [= <-]. by apply counts_worker_fail.
  - destruct (restart d e) as [[e1 dt]|] eqn:E; [|done]. intros [= <-].
    by eapply counts_restart.
  - unfold createSocket. destruct (try_new _ _ sys d e) as [[[r e1] dt]|] eqn:E; [|done].
    intros [= <-]. by eapply counts_try_new.
  - unfold createTcpResolver.
    destruct (try_new _ _ sys d e) as [[[r e1] dt]|] eqn:E; [|done].
    intros [= <-]. by eapply counts_try_new.
  - unfold createDeadlineTimer.
    destruct (try_new _ _ sys d e) as [[[r e1] dt]|] eqn:E; [|done].
    intros [= <-]. by eapply counts_try_new.
  - intros [= <-]. by destruct sys.
Qed.

(** X10.  Over every life of an executor made by [create], restarts and
    failing factories included: a thread is started once at creation and
    once per reset of the io_service and never otherwise;
    [io_service_.stop()] is called exactly once for each transition of
    [closed_] from false to true; and between two resets [closed_] makes
    that transition at most once, so no start of the loop is answered by
    more than one stop signal. *)
Theorem one_stop_per_start (ops : list Op) (e' : ExecutorService) :
  run_ops ops create = Some e' ->
  count_event ThreadStart (trace e') = S (count_event IoRestart (trace e')) /\
  count_event IoStop (trace e') = count_event ClosedSet (trace e') /\
  count_event ClosedSet (trace e') =
    (count_event IoRestart (trace e') + if closed_ e' then 1 else 0)%nat /\
  (count_event IoStop (trace e') <= count_event ThreadStart (trace e'))%nat.
Proof.
  assert (life_counts create) as H by by split.
  revert H. generalize create. induction ops as [|o ops IH]; intros e H; simpl.
  - intros [= <-]. destruct H as [H1 H2 H3 H4]. rewrite H2 in H4.
    repeat split; try done. rewrite H3, H4, H1. destruct (closed_ e); lia.
  - destruct (run_op o e) as [e1|] eqn:E; [|done]. intros Hrun.
    apply (IH e1); [|done]. by eapply counts_run_op.
Qed.

Lemma one_stop_per_start_witness :
  exists e',
    run_ops [OpAct (DoClose 5 0); OpAct (DoClose 5 (-1)); OpRestart 7;
             OpCreateSocket (Some "Too many open files") 3;
             OpAct (DoClose 2 10)] create = Some e' /\
    count_event ThreadStart (trace e') = S (count_event IoRestart (trace e')) /\
    count_event IoStop (trace e') = count_event ClosedSet (trace e') /\
    count_event ClosedSet (trace e') =
      (count_event IoRestart (trace e') + if closed_ e' then 1 else 0)%nat /\
    (count_event IoStop (trace e') <= count_event ThreadStart (trace e'))%nat.
Proof.
  eexists. split; [vm_compute; reflexivity|].
  apply (one_stop_per_start
           [OpAct (DoClose 5 0); OpAct (DoClose 5 (-1)); OpRestart 7;
            OpCreateSocket (Some "Too many open files") 3;
            OpAct (DoClose 2 10)]).
  vm_compute. reflexivity.
Defined.
